(** * e-Heart Python Framework: the simulation engine and its server session

    A shallow embedding of [eheart/_model.py], [eheart/_engine.py] and
    [eheart/server/_session.py].

    - Python [float]s and numpy doubles are IEEE-754 binary64 numbers: Rocq's
      primitive [float], with its own comparison (a NaN compares false).
    - A Python object that a method mutates is passed in and handed back:
      a method of [Engine] returns the engine after the call together with
      what the call returned or raised.
    - scipy's [LSODA] stepper is an interface ([OdeSolver]): the engine only
      calls its constructor, [step], [t] and [dense_output].
    - The [while] loop of [Engine.solve_ivp] runs on fuel. *)

From Stdlib Require Import Floats ZArith Lia Ascii.
From stdpp Require Import gmap strings list.

Set Warnings "-inexact-float".

(** ** Python exceptions and results *)

Inductive exn_class : Type :=
| IndexError
| AttributeError
| KeyError
| TypeError
| ValueError
| RuntimeError
| ModuleNotFoundError
| DecodeError
| OverflowError
| SolverError.

(** An exception object: its class and [str(err)]. *)
Record exn : Type := Exception { exn_cls : exn_class; exn_str : string }.

Inductive result (A : Type) : Type :=
| Ok (a : A)
| Raise (e : exn).
Arguments Ok {A} a.
Arguments Raise {A} e.

Definition is_ok {A} (r : result A) : bool :=
  match r with Ok _ => true | Raise _ => false end.

Definition bind {A B} (r : result A) (k : A -> result B) : result B :=
  match r with Ok a => k a | Raise e => Raise e end.

Notation "x <-! r ; k" := (bind r (fun x => k))
  (at level 100, r at next level, right associativity).

(** ** numpy values *)

(** A double or a one-dimensional array of doubles.  A two-dimensional array
    is the list of its rows. *)
Inductive ndarray : Type :=
| Scalar (x : float)
| Vector (xs : list float).

(** [np.zeros(n)] *)
Definition np_zeros (n : nat) : list float := replicate n 0%float.

(** Python's [seq[-1]]: [IndexError] on an empty sequence. *)
Definition py_last {A} (l : list A) : result A :=
  match last l with
  | Some x => Ok x
  | None => Raise (Exception IndexError "list index out of range")
  end.

(** Python's [seq[-n:]]: the last [n] items, all of them when there are
    fewer. *)
Definition py_lastn {A} (n : nat) (l : list A) : list A :=
  drop (length l - n) l.

(** ** [eheart._model] *)

Module Model.

(** What a model attribute holds: a plain value, or a differential
    variable ([DifferentialVariable], [_DiffvarScalar], [_DiffvarArray])
    with its [der]. *)
Inductive pyobj : Type :=
| Value (v : ndarray)
| DifferentialVariable (value : option ndarray) (der : ndarray).

(** [vars(self)]: a dict in insertion order. *)
Definition attrs : Type := list (string * pyobj).

Fixpoint setattr (a : attrs) (name : string) (o : pyobj) : attrs :=
  match a with
  | [] => [(name, o)]
  | (k, v) :: rest =>
      if String.eqb k name then (k, o) :: rest
      else (k, v) :: setattr rest name o
  end.

Fixpoint getattr (a : attrs) (name : string) : result pyobj :=
  match a with
  | [] => Raise (Exception AttributeError name)
  | (k, v) :: rest => if String.eqb k name then Ok v else getattr rest name
  end.

(** [diffvar(value)] for the values this embedding has: none, a scalar,
    an array.  [DifferentialVariable.__init__] sets [der = 0]. *)
Definition diffvar (value : option ndarray) : pyobj :=
  DifferentialVariable value (Scalar 0%float).

Definition is_diffvar (o : pyobj) : bool :=
  match o with DifferentialVariable _ _ => true | Value _ => false end.

(** A model object: its attributes, the names found at construction, and
    the [calc_ode] its class defines (it works on the attributes, and may
    raise). *)
Record Model : Type := {
  vars : attrs;
  _diffvars : list string;
  calc_ode : ndarray -> attrs -> attrs * result unit;
}.

(** [Model.__init__]: run [initialize_vars] (the attributes it assigns,
    in order), then collect the names bound to differential variables. *)
Definition __init__ (initialize_vars : list (string * pyobj))
    (calc : ndarray -> attrs -> attrs * result unit) : Model :=
  let a := foldl (fun a kv => setattr a kv.1 kv.2) [] initialize_vars in
  {| vars := a;
     _diffvars := (filter (fun kv => is_diffvar kv.2 = true) a).*1;
     calc_ode := calc |}.

Definition diffvars (m : Model) : list string := _diffvars m.

Definition with_vars (m : Model) (a : attrs) : Model :=
  {| vars := a; _diffvars := _diffvars m; calc_ode := calc_ode m |}.

(** The first loop of [eval_ode]:
    [setattr(self, self._diffvars[i], diffvar(y[i]))] for [i] from [i0]. *)
Fixpoint bind_diffvars (names : list string) (i : nat) (y : list ndarray)
    (a : attrs) : attrs * result unit :=
  match y with
  | [] => (a, Ok tt)
  | yi :: y' =>
      match names !! i with
      | None => (a, Raise (Exception IndexError "tuple index out of range"))
      | Some name =>
          bind_diffvars names (S i) y' (setattr a name (diffvar (Some yi)))
      end
  end.

(** [getattr(self, self._diffvars[i]).der] *)
Definition read_der (names : list string) (a : attrs) (i : nat)
    : result ndarray :=
  match names !! i with
  | None => Raise (Exception IndexError "tuple index out of range")
  | Some name =>
      o <-! getattr a name;
      match o with
      | DifferentialVariable _ der => Ok der
      | Value _ => Raise (Exception AttributeError "der")
      end
  end.

Fixpoint read_ders (names : list string) (a : attrs) (i n : nat)
    : result (list ndarray) :=
  match n with
  | 0 => Ok []
  | S n' =>
      d <-! read_der names a i;
      ds <-! read_ders names a (S i) n';
      Ok (d :: ds)
  end.

(** [eval_ode(t, y)]: [y] is the array of the values of the differential
    variables, one item per variable (a scalar each for one state, a row
    of samples each for a grid of states).  Returns the derivatives, one
    per item of [y]. *)
Definition eval_ode (m : Model) (t : ndarray) (y : list ndarray)
    : Model * result (list ndarray) :=
  match bind_diffvars (_diffvars m) 0 y (vars m) with
  | (a, Raise e) => (with_vars m a, Raise e)
  | (a, Ok _) =>
      match calc_ode m t a with
      | (a', Raise e) => (with_vars m a', Raise e)
      | (a', Ok _) =>
          (with_vars m a', read_ders (_diffvars m) a' 0 (length y))
      end
  end.

End Model.

Import Model(Model).

(** ** scipy.integrate *)

(** A dense output of one step: the state as a function of time. *)
Definition DenseOutput : Type := float -> list float.

(** The part of [scipy.integrate.LSODA] the engine uses.  The constructor
    gets the right-hand side, [t0], [y0], [t_bound], [first_step],
    [min_step], [max_step], [rtol] and [atol], and may raise.  [step] works
    on the solver and, through the right-hand side, on the attributes of
    the model; it returns [None], or a message when the step failed, or
    raises.  [solver_t] and [solver_n] are the attributes [t] (current
    time) and [n] (number of equations).  After a successful step
    [dense_output] is the interpolant over that step. *)
Class OdeSolver : Type := {
  solver : Type;
  LSODA :
    (Model -> ndarray -> list ndarray -> Model * result (list ndarray)) ->
    float -> list float -> float -> option float -> float -> float ->
    float -> float -> result solver;
  step : solver -> Model -> solver * Model.attrs * result (option string);
  solver_t : solver -> float;
  solver_n : solver -> nat;
  dense_output : solver -> DenseOutput;
}.

(** What scipy's steppers promise and the proofs below rely on: a new
    solver stands at [t0] with as many equations as [y0] has items; a
    successful step moves the time strictly forward, a failed one leaves
    it; the number of equations never changes and every dense output has
    that many components. *)
Class OdeSolverLaws `{OdeSolver} : Prop := {
  LSODA_t f t0 y0 tb h0 hmin hmax rtol atol s :
    LSODA f t0 y0 tb h0 hmin hmax rtol atol = Ok s -> solver_t s = t0;
  LSODA_n f t0 y0 tb h0 hmin hmax rtol atol s :
    LSODA f t0 y0 tb h0 hmin hmax rtol atol = Ok s ->
    solver_n s = length y0;
  step_t s m s' a :
    step s m = (s', a, Ok None) ->
    PrimFloat.ltb (solver_t s) (solver_t s') = true;
  step_failed_t s m s' a r :
    step s m = (s', a, r) -> r <> Ok None -> solver_t s' = solver_t s;
  step_n s m s' a r : step s m = (s', a, r) -> solver_n s' = solver_n s;
  dense_output_n s tau : length (dense_output s tau) = solver_n s;
}.

(** [scipy.integrate.OdeSolution]: the breakpoints and the local
    interpolants between them. *)
Record OdeSolution : Type := {
  sol_ts : list float;
  sol_interpolants : list DenseOutput;
}.

(** Whether consecutive items all satisfy [r]. *)
Fixpoint chain (r : float -> float -> bool) (l : list float) : bool :=
  match l with
  | a :: ((b :: _) as l') => r a b && chain r l'
  | _ => true
  end.

Definition increasing (ts : list float) : bool := chain PrimFloat.ltb ts.
Definition decreasing (ts : list float) : bool :=
  chain (fun a b => PrimFloat.ltb b a) ts.

(** [OdeSolution(ts, interpolants)]: refuses breakpoints that are neither
    strictly increasing nor strictly decreasing (a single zero-length
    segment is allowed), and a number of interpolants other than one less
    than the number of breakpoints. *)
Definition OdeSolution_init (ts : list float) (interpolants : list DenseOutput)
    : result OdeSolution :=
  let zero_segment :=
    match ts with [a; b] => PrimFloat.eqb a b | _ => false end in
  if negb (zero_segment || increasing ts || decreasing ts)
  then Raise (Exception ValueError
                "`ts` must be strictly increasing or decreasing.")
  else if negb (length ts =? S (length interpolants))%nat
  then Raise (Exception ValueError
                "Numbers of time stamps and interpolants don't match.")
  else Ok {| sol_ts := ts; sol_interpolants := interpolants |}.

(** [np.searchsorted(a, v, side)] on an increasing [a]: the number of
    leading items below [v] (side [left]), or not above it (side [right]). *)
Fixpoint searchsorted_left (a : list float) (v : float) : nat :=
  match a with
  | x :: a' => if PrimFloat.ltb x v then S (searchsorted_left a' v) else 0
  | [] => 0
  end.

Fixpoint searchsorted_right (a : list float) (v : float) : nat :=
  match a with
  | x :: a' => if PrimFloat.leb x v then S (searchsorted_right a' v) else 0
  | [] => 0
  end.

(** [ts[-1] >= ts[0]] *)
Definition ascending (ts : list float) : bool :=
  match head ts, last ts with
  | Some a, Some b => PrimFloat.leb a b
  | _, _ => false
  end.

(** The segment [OdeSolution.__call__] picks for one time [t]:
    [min(max(ind - 1, 0), n_segments - 1)], counted from the other end when
    the breakpoints decrease. *)
Definition sol_segment (sol : OdeSolution) (t : float) : nat :=
  let n_segments := length (sol_interpolants sol) in
  if ascending (sol_ts sol) then
    Nat.min (searchsorted_left (sol_ts sol) t - 1) (n_segments - 1)
  else
    n_segments - 1
    - Nat.min (searchsorted_right (reverse (sol_ts sol)) t - 1)
              (n_segments - 1).

(** [sol(t)] for one time. *)
Definition sol_call (sol : OdeSolution) (t : float) : result (list float) :=
  match sol_interpolants sol !! sol_segment sol t with
  | Some f => Ok (f t)
  | None => Raise (Exception IndexError "list index out of range")
  end.

(** ** [eheart._engine] *)

Section Engine.
Context `{OdeSolver}.

(** The attributes of an [Engine].  [_ts] and [_interpolants] come into
    being with the solver; before that they are read nowhere, and are
    empty here. *)
Record Engine : Type := {
  model : Model;
  _t : float;
  _y : list float;
  _init_step : option float;
  _min_step : float;
  _max_step : float;
  _solver : option solver;
  _ts : list float;
  _interpolants : list DenseOutput;
}.

Definition set_model (e : Engine) (m : Model) : Engine :=
  {| model := m; _t := _t e; _y := _y e; _init_step := _init_step e;
     _min_step := _min_step e; _max_step := _max_step e;
     _solver := _solver e; _ts := _ts e;
     _interpolants := _interpolants e |}.

Definition set_t (e : Engine) (t : float) : Engine :=
  {| model := model e; _t := t; _y := _y e; _init_step := _init_step e;
     _min_step := _min_step e; _max_step := _max_step e;
     _solver := _solver e; _ts := _ts e;
     _interpolants := _interpolants e |}.

Definition set_y (e : Engine) (y : list float) : Engine :=
  {| model := model e; _t := _t e; _y := y; _init_step := _init_step e;
     _min_step := _min_step e; _max_step := _max_step e;
     _solver := _solver e; _ts := _ts e;
     _interpolants := _interpolants e |}.

Definition set_steps (e : Engine) (init_step : option float)
    (min_step max_step : float) : Engine :=
  {| model := model e; _t := _t e; _y := _y e; _init_step := init_step;
     _min_step := min_step; _max_step := max_step;
     _solver := _solver e; _ts := _ts e;
     _interpolants := _interpolants e |}.

Definition set_solver (e : Engine) (s : option solver) : Engine :=
  {| model := model e; _t := _t e; _y := _y e; _init_step := _init_step e;
     _min_step := _min_step e; _max_step := _max_step e;
     _solver := s; _ts := _ts e; _interpolants := _interpolants e |}.

Definition set_history (e : Engine) (ts : list float)
    (interpolants : list DenseOutput) : Engine :=
  {| model := model e; _t := _t e; _y := _y e; _init_step := _init_step e;
     _min_step := _min_step e; _max_step := _max_step e;
     _solver := _solver e; _ts := ts; _interpolants := interpolants |}.

(** [Engine(model, t=0, init_step=None, min_step=0, max_step=np.inf)] *)
Definition Engine__init__ (m : Model) (t : option float)
    (init_step : option float) (min_step max_step : option float)
    : Engine :=
  {| model := m;
     _t := default 0%float t;
     _y := np_zeros (length (Model.diffvars m));
     _init_step := init_step;
     _min_step := default 0%float min_step;
     _max_step := default infinity max_step;
     _solver := None;
     _ts := [];
     _interpolants := [] |}.

(** The read-only properties [t] and [y]. *)
Definition Engine_t (e : Engine) : float := _t e.
Definition Engine_y (e : Engine) : list float := _y e.

(** The loop of [set_diffvar_values] over [enumerate(diffvars)] from
    position [i]; [self._y[i] = ...] raises out of range and keeps what
    was written before. *)
Fixpoint set_values_from (names : list string) (i : nat)
    (vdict : gmap string float) (y : list float)
    : list float * result unit :=
  match names with
  | [] => (y, Ok tt)
  | var :: names' =>
      match vdict !! var with
      | Some v =>
          if (i <? length y)%nat
          then set_values_from names' (S i) vdict (<[i := v]> y)
          else (y, Raise (Exception IndexError "index out of bounds"))
      | None => set_values_from names' (S i) vdict y
      end
  end.

Definition set_diffvar_values (e : Engine) (vdict : gmap string float)
    : Engine * result unit :=
  let '(y', r) :=
    set_values_from (Model.diffvars (model e)) 0 vdict (_y e) in
  (set_y e y', r).

(** The dict comprehension of [get_diffvar_values], from position [i]
    with the entries [d] made so far. *)
Fixpoint get_values_from (names : list string) (i : nat) (y : list float)
    (d : gmap string float) : result (gmap string float) :=
  match names with
  | [] => Ok d
  | var :: names' =>
      match y !! i with
      | Some v => get_values_from names' (S i) y (<[var := v]> d)
      | None => Raise (Exception IndexError "index out of bounds")
      end
  end.

Definition get_diffvar_values (e : Engine) : result (gmap string float) :=
  get_values_from (Model.diffvars (model e)) 0 (_y e) ∅.

(** The first part of [solve_ivp]: make the solver, or keep it and cut
    the history. *)
Definition solve_ivp_prepare (e : Engine) : Engine * result unit :=
  match _solver e with
  | None =>
      match LSODA Model.eval_ode (_t e) (_y e) infinity
              (_init_step e) (_min_step e) (_max_step e)
              1e-6%float 1e-10%float with
      | Raise ex => (e, Raise ex)
      | Ok s => (set_history (set_solver e (Some s)) [_t e] [], Ok tt)
      end
  | Some _ =>
      (set_history e (py_lastn 2 (_ts e)) (py_lastn 1 (_interpolants e)),
       Ok tt)
  end.

(** One pass of the body of the [while] loop. *)
Definition solve_ivp_step (e : Engine) : Engine * result unit :=
  match _solver e with
  | None => (e, Raise (Exception AttributeError "step"))
  | Some s =>
      let '(s', a, message) := step s (model e) in
      let e1 :=
        set_solver (set_model e (Model.with_vars (model e) a)) (Some s') in
      match message with
      | Raise ex => (e1, Raise ex)
      | Ok (Some msg) => (e1, Raise (Exception SolverError msg))
      | Ok None =>
          (set_history e1 (_ts e ++ [solver_t s'])
             (_interpolants e ++ [dense_output s']), Ok tt)
      end
  end.

(** [while self._ts[-1] < tn: ...]; [None] when the fuel runs out. *)
Fixpoint solve_ivp_loop (fuel : nat) (e : Engine) (tn : float)
    : option (Engine * result unit) :=
  match py_last (_ts e) with
  | Raise ex => Some (e, Raise ex)
  | Ok tl =>
      if PrimFloat.ltb tl tn then
        match fuel with
        | 0 => None
        | S fuel' =>
            match solve_ivp_step e with
            | (e', Raise ex) => Some (e', Raise ex)
            | (e', Ok _) => solve_ivp_loop fuel' e' tn
            end
        end
      else Some (e, Ok tt)
  end.

(** What follows the loop: commit [tn] and the state there, and build
    the solution. *)
Definition solve_ivp_finish (e : Engine) (tn : float)
    : Engine * result OdeSolution :=
  let e1 := set_t e tn in
  match py_last (_interpolants e1) with
  | Raise ex => (e1, Raise ex)
  | Ok f =>
      let e2 := set_y e1 (f tn) in
      (e2, OdeSolution_init (_ts e2) (_interpolants e2))
  end.

Definition solve_ivp (fuel : nat) (e : Engine) (tn : float)
    : option (Engine * result OdeSolution) :=
  match solve_ivp_prepare e with
  | (e0, Raise ex) => Some (e0, Raise ex)
  | (e0, Ok _) =>
      match solve_ivp_loop fuel e0 tn with
      | None => None
      | Some (e1, Raise ex) => Some (e1, Raise ex)
      | Some (e1, Ok _) => Some (solve_ivp_finish e1 tn)
      end
  end.

(** [restart(t=None, y=None, init_step=None, min_step=None,
    max_step=None)] *)
Definition restart (e : Engine) (t : option float) (y : option (list float))
    (init_step min_step max_step : option float) : Engine :=
  let e := match t with Some t => set_t e t | None => e end in
  let e := match y with Some y => set_y e y | None => e end in
  let e := set_steps e
             (match init_step with Some h => Some h | None => _init_step e end)
             (default (_min_step e) min_step)
             (default (_max_step e) max_step) in
  set_solver e None.

(** [eval(func, t=None, y=None)] *)
Definition eval {R : Type} (e : Engine) (func : Model -> result R)
    (t : option ndarray) (y : option (list ndarray)) : Engine * result R :=
  let t := default (Scalar (_t e)) t in
  let y := default (Scalar <$> _y e) y in
  match Model.eval_ode (model e) t y with
  | (m', Raise ex) => (set_model e m', Raise ex)
  | (m', Ok _) => (set_model e m', func m')
  end.

End Engine.

(** ** numpy.arange *)

(** [ceil] of a double as an index ([npy_intp]); numpy refuses a NaN and
    what does not fit. *)
Definition ceil_to_intp (x : float) : result Z :=
  match Prim2SF x with
  | S754_nan => Raise (Exception ValueError "arange: cannot compute length")
  | S754_infinity _ =>
      Raise (Exception OverflowError "arange: overflow while computing length")
  | S754_zero _ => Ok 0%Z
  | S754_finite s m e =>
      let v := (if s then Z.neg m else Z.pos m) in
      let n := (if 0 <=? e then v * 2 ^ e else - ((- v) / 2 ^ (- e)))%Z in
      if ((- 2 ^ 63 <=? n) && (n <=? 2 ^ 63 - 1))%Z then Ok n
      else Raise (Exception OverflowError
                    "arange: overflow while computing length")
  end.

(** The double of a small index. *)
Definition float_of_nat (i : nat) : float :=
  PrimFloat.of_uint63 (Uint63.of_Z (Z.of_nat i)).

(** [np.arange(start, stop, step)] on doubles: [ceil((stop - start)/step)]
    values; the first is [start], the second [start + step], and the value
    at index [i] is [start + i * delta] with [delta] the difference of the
    first two. *)
Definition np_arange (start stop step : float) : result (list float) :=
  n <-! ceil_to_intp ((stop - start) / step)%float;
  let next := (start + step)%float in
  let delta := (next - start)%float in
  Ok ((fun i => match i with
                | 0 => start
                | 1 => next
                | _ => (start + float_of_nat i * delta)%float
                end) <$> seq 0 (Z.to_nat n)).

(** [sol(t)] for an array of times: a two-dimensional array with a row per
    component and a column per time, here the list of its rows.  scipy
    stacks the values of the segments with [np.hstack], which refuses an
    empty list. *)
Definition sol_call_array (sol : OdeSolution) (ts : list float)
    : result (list (list float)) :=
  match ts with
  | [] => Raise (Exception ValueError
                   "need at least one array to concatenate")
  | t0 :: _ =>
      cols <-! (fix go (ts : list float) : result (list (list float)) :=
                  match ts with
                  | [] => Ok []
                  | t :: ts' =>
                      c <-! sol_call sol t; cs <-! go ts'; Ok (c :: cs)
                  end) ts;
      Ok ((fun i => (fun c : list float => default 0%float (c !! i)) <$> cols)
            <$> seq 0 (length (default [] (head cols))))
  end.

(** ** [eheart.server._session] *)

(** The messages of [eheart_pb2], as the session reads and fills them. *)
Inductive Command : Type :=
| INIT
| SET_DIFFVAR_VAL
| GET_DIFFVAR_NAME
| GET_CURRENT_VAL
| SET_WATCHING_VAR
| SOLVE_IVP
| CHANGE_TIME
| SET_MODEL_CONST
| EVAL_MODEL_VAR
| CALL_MODEL_METHOD
| UNRECOGNIZED (number : Z).

Record InitParam : Type := {
  init_model : string;
  init_t : float;
  init_options : gmap string float;
}.

Record SolveIVPParam : Type := {
  tn : float;
  output_interval : float;
}.

(** The message types that the handlers below unpack a parameter into. *)
Inductive ParamType : Type :=
| InitParamType
| SetDiffvarValParamType
| SetWatchingVarParamType
| SolveIVPParamType.

(** [google.protobuf.Any]: the packed parameter of a request, a type URL
    and bytes.  The bytes of [Undecodable type error] do not parse as the
    message [type] that the URL names; [error] is the text of the
    [DecodeError] the parser raises on them.  The parameters of the
    commands whose handlers are not modelled stay packed. *)
Inductive Any : Type :=
| PackedInitParam (p : InitParam)
| PackedSetDiffvarValParam (valmap : gmap string float)
| PackedSetWatchingVarParam (vars : list string)
| PackedSolveIVPParam (p : SolveIVPParam)
| Undecodable (type : ParamType) (error : string)
| PackedOther (type_url : string) (value : string)
| NotSet.

Record Request : Type := {
  command : Command;
  parameter : Any;
}.

Inductive GenericValue : Type :=
| real (v : float)
| integer (v : Z)
| string_value (v : string).

Record GenericScalarOrArray : Type := {
  isscalar : bool;
  value : list GenericValue;
}.

Inductive Response : Type :=
| StatusResponse (success : bool) (message : string)
| DiffvarNameResponse (names : list string)
| CurrentValResponse (t : float) (y : list float)
| SolutionResponse (t : list float) (diffvars : list (list float))
    (watching_vars : list (list float))
| ValueArrayResponse (values : list float)
| MethodReturnResponse (return_value : list GenericScalarOrArray).

(** [req_param.Unpack(parameter)] on a new message [parameter]: when the
    type URL names another type, [Unpack] returns [False] and the message
    keeps its defaults; when it names the type of [parameter], the bytes
    are parsed into it, and bytes that do not parse raise
    [DecodeError]. *)
Definition unpack_InitParam (a : Any) : result InitParam :=
  match a with
  | PackedInitParam p => Ok p
  | Undecodable InitParamType error => Raise (Exception DecodeError error)
  | _ => Ok {| init_model := ""; init_t := 0%float; init_options := ∅ |}
  end.

Definition unpack_SetDiffvarValParam (a : Any)
    : result (gmap string float) :=
  match a with
  | PackedSetDiffvarValParam m => Ok m
  | Undecodable SetDiffvarValParamType error =>
      Raise (Exception DecodeError error)
  | _ => Ok ∅
  end.

Definition unpack_SetWatchingVarParam (a : Any) : result (list string) :=
  match a with
  | PackedSetWatchingVarParam l => Ok l
  | Undecodable SetWatchingVarParamType error =>
      Raise (Exception DecodeError error)
  | _ => Ok []
  end.

Definition unpack_SolveIVPParam (a : Any) : result SolveIVPParam :=
  match a with
  | PackedSolveIVPParam p => Ok p
  | Undecodable SolveIVPParamType error =>
      Raise (Exception DecodeError error)
  | _ => Ok {| tn := 0%float; output_interval := 0%float |}
  end.

(** [s.rsplit('.', 1)] unpacked into two names: the text before the last
    dot and the text after it; [ValueError] without a dot. *)
Fixpoint rsplit_dot (s : string) : option (string * string) :=
  match s with
  | EmptyString => None
  | String c s' =>
      match rsplit_dot s' with
      | Some (a, b) => Some (String c a, b)
      | None =>
          if Ascii.eqb c "."%char then Some (EmptyString, s') else None
      end
  end.

(** [self.model]: absent, or the very object the engine holds, or an
    object of its own (after an INIT that made the model and failed to
    make the engine). *)
Inductive model_attr : Type :=
| NoModel
| EngineModel
| OwnModel (m : Model).

Section Session.
Context `{OdeSolver}.

(** The attributes of a [Session] (the table of handlers is
    [COMMAND_FUNCS] below). *)
Record Session : Type := {
  session_model : model_attr;
  engine : option Engine;
  restart_needed : option bool;
  watching : list string;
}.

(** What a handler returns: the session after the call and the response,
    or the exception that leaves the handler; [None] when the fuel of a
    solve runs out. *)
Definition handled : Type := option (Session * result Response).

(** What the session takes from outside this embedding: the wire format,
    the import of a model class by name (the constructed model, or what
    [import_module], [getattr] or the constructor raised), and the
    handlers that go through keyword arguments and reflection on the
    model. *)
Class Runtime : Type := {
  bytes : Type;
  ParseFromString : bytes -> result Request;
  SerializeToString : Response -> bytes;
  import_model : string -> string -> result Model;
  _change_time : Session -> Any -> handled;
  _set_model_const : Session -> Any -> handled;
  _eval_model_var : Session -> Any -> handled;
  _call_model_method : Session -> Any -> handled;
}.
Context `{Runtime}.

(** [Session()] *)
Definition Session__init__ : Session :=
  {| session_model := NoModel; engine := None; restart_needed := None;
     watching := [] |}.

Definition no_attribute {A} (name : string) : result A :=
  Raise (Exception AttributeError name).

Definition failure (s : Session) (err : exn) : handled :=
  Some (s, Ok (StatusResponse false (exn_str err))).

(** [Engine(self.model, parameter.t, **parameter.options)]: a keyword
    that is no parameter, or that names [model] or [t] again, is a
    [TypeError]. *)
Definition Engine_kwargs (m : Model) (t : float)
    (options : gmap string float) : result Engine :=
  if decide (dom options ⊆ {["init_step"; "min_step"; "max_step"]})
  then Ok (Engine__init__ m (Some t) (options !! "init_step")
             (options !! "min_step") (options !! "max_step"))
  else Raise (Exception TypeError
                "__init__() got an unexpected keyword argument").

Definition _init (s : Session) (req_param : Any) : handled :=
  match unpack_InitParam req_param with
  | Raise err => Some (s, Raise err)
  | Ok parameter =>
  match rsplit_dot (init_model parameter) with
  | None =>
      failure s (Exception ValueError
                   "not enough values to unpack (expected 2, got 1)")
  | Some (model_package, model_class) =>
      match import_model model_package model_class with
      | Raise err => failure s err
      | Ok m =>
          let s1 :=
            {| session_model := OwnModel m; engine := engine s;
               restart_needed := restart_needed s;
               watching := watching s |} in
          match Engine_kwargs m (init_t parameter)
                  (init_options parameter) with
          | Raise err => failure s1 err
          | Ok e =>
              Some ({| session_model := EngineModel; engine := Some e;
                       restart_needed := Some false;
                       watching := watching s |},
                    Ok (StatusResponse true ""))
          end
      end
  end end.

Definition with_engine (s : Session) (e : Engine) : Session :=
  {| session_model := session_model s; engine := Some e;
     restart_needed := restart_needed s; watching := watching s |}.

Definition with_restart_needed (s : Session) (b : bool) : Session :=
  {| session_model := session_model s; engine := engine s;
     restart_needed := Some b; watching := watching s |}.

Definition _set_diffvar_val (s : Session) (req_param : Any) : handled :=
  match unpack_SetDiffvarValParam req_param with
  | Raise err => Some (s, Raise err)
  | Ok valmap =>
  let s1 := with_restart_needed s true in
  match engine s1 with
  | None => failure s1 (Exception AttributeError "engine")
  | Some e =>
      match set_diffvar_values e valmap with
      | (e', Raise err) => failure (with_engine s1 e') err
      | (e', Ok _) =>
          Some (with_engine s1 e', Ok (StatusResponse true ""))
      end
  end end.

(** [self.model.diffvars] *)
Definition session_diffvars (s : Session) : result (list string) :=
  match session_model s with
  | NoModel => no_attribute "model"
  | OwnModel m => Ok (Model.diffvars m)
  | EngineModel =>
      match engine s with
      | Some e => Ok (Model.diffvars (model e))
      | None => no_attribute "model"
      end
  end.

Definition _get_diffvar_name (s : Session) (_ : Any) : handled :=
  Some (s, names <-! session_diffvars s; Ok (DiffvarNameResponse names)).

Definition _get_current_val (s : Session) (_ : Any) : handled :=
  Some (s,
        match engine s with
        | None => no_attribute "engine"
        | Some e => Ok (CurrentValResponse (Engine_t e) (Engine_y e))
        end).

Definition _set_watching_var (s : Session) (req_param : Any) : handled :=
  match unpack_SetWatchingVarParam req_param with
  | Raise err => Some (s, Raise err)
  | Ok vars =>
      Some ({| session_model := session_model s; engine := engine s;
               restart_needed := restart_needed s; watching := vars |},
            Ok (StatusResponse true ""))
  end.

(** [if self.restart_needed: self.engine.restart();
    self.restart_needed = False] *)
Definition restart_if_needed (s : Session) : result Session :=
  match restart_needed s with
  | None => no_attribute "restart_needed"
  | Some false => Ok s
  | Some true =>
      match engine s with
      | None => no_attribute "engine"
      | Some e =>
          Ok (with_restart_needed
                (with_engine s (restart e None None None None None)) false)
      end
  end.

(** [[getattr(model, v) for v in self.watching]] *)
Fixpoint watched_attrs (m : Model) (names : list string)
    : result (list Model.pyobj) :=
  match names with
  | [] => Ok []
  | v :: names' =>
      o <-! Model.getattr (Model.vars m) v;
      os <-! watched_attrs m names';
      Ok (o :: os)
  end.

(** [watching[i].tolist()] assigned to a repeated field: a row of
    doubles passes; a single double is not iterable, and a differential
    variable without a value has no [tolist]. *)
Definition watched_row (o : Model.pyobj) : result (list float) :=
  match o with
  | Model.Value (Vector xs)
  | Model.DifferentialVariable (Some (Vector xs)) _ => Ok xs
  | Model.Value (Scalar _)
  | Model.DifferentialVariable (Some (Scalar _)) _ =>
      Raise (Exception TypeError "Value must be iterable")
  | Model.DifferentialVariable None _ => no_attribute "tolist"
  end.

Fixpoint collect {A B} (f : A -> result B) (l : list A) : result (list B) :=
  match l with
  | [] => Ok []
  | a :: l' => b <-! f a; bs <-! collect f l'; Ok (b :: bs)
  end.

(** [y[i]] of a two-dimensional array. *)
Definition row (y : list (list float)) (i : nat) : result (list float) :=
  match y !! i with
  | Some r => Ok r
  | None => Raise (Exception IndexError "index out of bounds")
  end.

Definition _solve_ivp (fuel : nat) (s : Session) (req_param : Any)
    : handled :=
  match unpack_SolveIVPParam req_param with
  | Raise err => Some (s, Raise err)
  | Ok parameter =>
  match restart_if_needed s with
  | Raise err => failure s err
  | Ok s1 =>
  match engine s1 with
  | None => failure s1 (Exception AttributeError "engine")
  | Some e =>
  let tprev := Engine_t e in
  let tstep := output_interval parameter in
  match solve_ivp fuel e (tn parameter) with
  | None => None
  | Some (e1, Raise err) => failure (with_engine s1 e1) err
  | Some (e1, Ok sol) =>
  match np_arange tprev (tn parameter + tstep)%float tstep with
  | Raise err => failure (with_engine s1 e1) err
  | Ok tout =>
  match sol_call_array sol tout with
  | Raise err => failure (with_engine s1 e1) err
  | Ok y =>
  match
    match watching s1 with
    | [] => (e1, Ok [])
    | _ :: _ =>
        eval e1 (fun model => watched_attrs model (watching s1))
          (Some (Vector tout)) (Some (Vector <$> y))
    end
  with
  | (e2, Raise err) => failure (with_engine s1 e2) err
  | (e2, Ok watched) =>
      Some (with_engine s1 e2,
            diffvars <-! collect (row y) (seq 0 (length (Engine_y e2)));
            watching_vars <-! collect watched_row watched;
            Ok (SolutionResponse tout diffvars watching_vars))
  end end end end end end end.

(** [self.COMMAND_FUNCS[command]]: [KeyError] for a number outside the
    table. *)
Definition COMMAND_FUNCS (fuel : nat) (c : Command)
    : result (Session -> Any -> handled) :=
  match c with
  | INIT => Ok _init
  | SET_DIFFVAR_VAL => Ok _set_diffvar_val
  | GET_DIFFVAR_NAME => Ok _get_diffvar_name
  | GET_CURRENT_VAL => Ok _get_current_val
  | SET_WATCHING_VAR => Ok _set_watching_var
  | SOLVE_IVP => Ok (_solve_ivp fuel)
  | CHANGE_TIME => Ok _change_time
  | SET_MODEL_CONST => Ok _set_model_const
  | EVAL_MODEL_VAR => Ok _eval_model_var
  | CALL_MODEL_METHOD => Ok _call_model_method
  | UNRECOGNIZED _ => Raise (Exception KeyError "command")
  end.

(** [process(message)]: the session after the call, and the serialized
    response or the exception that leaves [process]. *)
Definition process (fuel : nat) (s : Session) (message : bytes)
    : option (Session * result bytes) :=
  match ParseFromString message with
  | Raise err => Some (s, Raise err)
  | Ok request =>
      match COMMAND_FUNCS fuel (command request) with
      | Raise err => Some (s, Raise err)
      | Ok handler =>
          match handler s (parameter request) with
          | None => None
          | Some (s', Raise err) => Some (s', Raise err)
          | Some (s', Ok response) =>
              Some (s', Ok (SerializeToString response))
          end
      end
  end.

(** [Session.main]: answer the messages of a connection one after the
    other; an exception that leaves [process] ends the loop, and the
    messages behind it get no answer. *)
Fixpoint main_loop (fuel : nat) (s : Session) (messages : list bytes)
    : option (list bytes * option exn) :=
  match messages with
  | [] => Some ([], None)
  | message :: rest =>
      match process fuel s message with
      | None => None
      | Some (_, Raise err) => Some ([], Some err)
      | Some (s', Ok sent) =>
          match main_loop fuel s' rest with
          | None => None
          | Some (more, err) => Some (sent :: more, err)
          end
      end
  end.

Definition main (fuel : nat) (messages : list bytes)
    : option (list bytes * option exn) :=
  main_loop fuel Session__init__ messages.

End Session.

(** ** The values of CALL_MODEL_METHOD *)

Set Warnings "-register-all".

(** The Python values that [_call_model_method] passes to a method of the
    model and gets back from it: a float, an int, a str, a list, or
    [None]. *)
Inductive pyvalue : Type :=
| PyFloat (x : float)
| PyInt (n : Z)
| PyStr (s : string)
| PyList (items : list pyvalue)
| PyNone.

(** [np.isscalar(value)] *)
Definition np_isscalar (value : pyvalue) : bool :=
  match value with
  | PyFloat _ | PyInt _ | PyStr _ => true
  | PyList _ | PyNone => false
  end.

(** [getattr(v, v.WhichOneof("value"))] of a [GenericValue] that has one
    member of its oneof set. *)
Definition generic_value_member (v : GenericValue) : pyvalue :=
  match v with
  | real x => PyFloat x
  | integer n => PyInt n
  | string_value s => PyStr s
  end.

(** [_get_scalar_or_array_value(msg)]: [values[0]] raises on a scalar
    message without a value. *)
Definition _get_scalar_or_array_value (msg : GenericScalarOrArray)
    : result pyvalue :=
  let values := generic_value_member <$> value msg in
  if isscalar msg then
    match values with
    | v :: _ => Ok v
    | [] => Raise (Exception IndexError "list index out of range")
    end
  else Ok (PyList values).

Section GenericValues.
(** Two facts of the installation that the sources do not fix: whether
    numpy still has the alias [np.int] (it was removed in numpy 1.24;
    without it, evaluating [(int, np.int)] raises [AttributeError]), and
    whether an int fits the [integer] field of [GenericValue] (the
    field's width is declared in [eheart.proto]; assigning an int that
    does not fit raises [ValueError]). *)
Variable np_int : bool.
Variable integer_fits : Z -> bool.

Definition _build_generic_value (value : pyvalue) : result GenericValue :=
  match value with
  | PyFloat x => Ok (real x)
  | _ =>
      if np_int then
        match value with
        | PyInt n =>
            if integer_fits n then Ok (integer n)
            else Raise (Exception ValueError "Value out of range")
        | PyStr s => Ok (string_value s)
        | _ => Raise (Exception TypeError "Illegal type")
        end
      else
        Raise (Exception AttributeError
                 "module 'numpy' has no attribute 'int'")
  end.

Definition _build_scalar_or_array_value (value : pyvalue)
    : result GenericScalarOrArray :=
  if np_isscalar value then
    v <-! _build_generic_value value;
    Ok {| isscalar := true; value := [v] |}
  else
    match value with
    | PyList items =>
        vs <-! collect _build_generic_value items;
        Ok {| isscalar := false; value := vs |}
    | _ => Raise (Exception TypeError "object is not iterable")
    end.

End GenericValues.

(** ** Test doubles

    A fixed-step explicit Euler stepper behind the [OdeSolver] interface,
    the model of the repository's tests, a model whose right-hand side has
    a pole, and a runtime whose wire format is the messages themselves. *)

Record Euler : Type := {
  euler_fun : Model -> ndarray -> list ndarray -> Model * result (list ndarray);
  euler_t : float;
  euler_y : list float;
  euler_h : float;
  euler_slope : list float;
}.

Definition Euler_init
    (f : Model -> ndarray -> list ndarray -> Model * result (list ndarray))
    (t0 : float) (y0 : list float) (t_bound : float)
    (first_step : option float) (min_step max_step rtol atol : float)
    : result Euler :=
  if PrimFloat.ltb 0 max_step then
    let h := default 0.5%float first_step in
    Ok {| euler_fun := f; euler_t := t0; euler_y := y0;
          euler_h := if PrimFloat.ltb max_step h then max_step else h;
          euler_slope := [] |}
  else Raise (Exception ValueError "`max_step` must be positive.").

(** The derivatives as finite doubles, as many as there are equations. *)
Fixpoint finite_scalars (ders : list ndarray) : option (list float) :=
  match ders with
  | [] => Some []
  | Scalar d :: ders' =>
      if PrimFloat.is_finite d
      then cons d <$> finite_scalars ders'
      else None
  | Vector _ :: _ => None
  end.

Definition Euler_step (s : Euler) (m : Model)
    : Euler * Model.attrs * result (option string) :=
  let '(m', r) := euler_fun s m (Scalar (euler_t s)) (Scalar <$> euler_y s) in
  match r with
  | Raise ex => (s, Model.vars m', Raise ex)
  | Ok ders =>
      match finite_scalars ders with
      | Some dy =>
          let t' := (euler_t s + euler_h s)%float in
          if (length dy =? length (euler_y s))%nat && PrimFloat.ltb (euler_t s) t'
          then ({| euler_fun := euler_fun s; euler_t := t';
                   euler_y :=
                     zip_with (fun y d => (y + euler_h s * d)%float)
                       (euler_y s) dy;
                   euler_h := euler_h s; euler_slope := dy |},
                Model.vars m', Ok None)
          else (s, Model.vars m', Ok (Some "Unexpected istate in LSODA."))
      | None => (s, Model.vars m', Ok (Some "Unexpected istate in LSODA."))
      end
  end.

(** The straight line through the end of the last step. *)
Definition Euler_dense_output (s : Euler) : DenseOutput :=
  fun tau =>
    imap (fun i y =>
            (y + (tau - euler_t s) * default 0%float (euler_slope s !! i))%float)
      (euler_y s).

#[export] Instance Euler_solver : OdeSolver := {|
  solver := Euler;
  LSODA := Euler_init;
  step := Euler_step;
  solver_t := euler_t;
  solver_n := fun s => length (euler_y s);
  dense_output := Euler_dense_output;
|}.

(** Arithmetic of numpy values, with broadcasting of a scalar. *)
Definition nd_map2 (f : float -> float -> float) (a b : ndarray) : ndarray :=
  match a, b with
  | Scalar x, Scalar y => Scalar (f x y)
  | Scalar x, Vector ys => Vector (f x <$> ys)
  | Vector xs, Scalar y => Vector ((fun x => f x y) <$> xs)
  | Vector xs, Vector ys => Vector (zip_with f xs ys)
  end.

Definition nd_opp (a : ndarray) : ndarray :=
  match a with
  | Scalar x => Scalar (- x)%float
  | Vector xs => Vector (PrimFloat.opp <$> xs)
  end.

(** [SingleExpModel] of [tests/test_server.py]:
    [self.t = t; self.ydot = -self.tau * self.y; self.y.der = self.ydot]. *)
Definition SingleExp_calc_ode (t : ndarray) (a : Model.attrs)
    : Model.attrs * result unit :=
  let a := Model.setattr a "t" (Model.Value t) in
  match Model.getattr a "tau", Model.getattr a "y" with
  | Ok (Model.Value tau), Ok (Model.DifferentialVariable (Some y) _) =>
      let ydot := nd_map2 PrimFloat.mul (nd_opp tau) y in
      let a := Model.setattr a "ydot" (Model.Value ydot) in
      (Model.setattr a "y" (Model.DifferentialVariable (Some y) ydot), Ok tt)
  | Raise err, _ | _, Raise err => (a, Raise err)
  | _, _ => (a, Raise (Exception TypeError "unsupported operand type(s)"))
  end.

Definition SingleExpModel : Model :=
  Model.__init__
    [("tau", Model.Value (Scalar 1%float)); ("y", Model.diffvar None)]
    SingleExp_calc_ode.

(** A model with [dy/dt = 1 / (1 - t)]. *)
Definition Pole_calc_ode (t : ndarray) (a : Model.attrs)
    : Model.attrs * result unit :=
  match Model.getattr a "y" with
  | Ok (Model.DifferentialVariable y _) =>
      let der :=
        nd_map2 PrimFloat.div (Scalar 1%float)
          (nd_map2 PrimFloat.sub (Scalar 1%float) t) in
      (Model.setattr a "y" (Model.DifferentialVariable y der), Ok tt)
  | Ok (Model.Value _) => (a, Raise (Exception AttributeError "der"))
  | Raise err => (a, Raise err)
  end.

Definition PoleModel : Model :=
  Model.__init__ [("y", Model.diffvar None)] Pole_calc_ode.

(** A runtime for the examples: a message on the wire is the request or
    the response itself; [test_server.SingleExpModel] is the one class that
    can be imported; the handlers left outside answer with a failure. *)
Definition not_modelled (s : Session) (_ : Any) : handled :=
  failure s (Exception RuntimeError "not modelled").

#[export] Instance test_runtime : Runtime := {|
  bytes := Request + Response;
  ParseFromString := fun message =>
    match message with
    | inl request => Ok request
    | inr _ => Raise (Exception DecodeError "Error parsing message")
    end;
  SerializeToString := inr;
  import_model := fun package class =>
    if String.eqb package "test_server" && String.eqb class "SingleExpModel"
    then Ok SingleExpModel
    else Raise (Exception ModuleNotFoundError package);
  _change_time := not_modelled;
  _set_model_const := not_modelled;
  _eval_model_var := not_modelled;
  _call_model_method := not_modelled;
|}.

(** Engines for the examples: the test model at [y = 10], the same engine
    after [solve_ivp(1)], and the pole model stepped by [1]. *)
Definition exp_engine : Engine :=
  (set_diffvar_values (Engine__init__ SingleExpModel None None None None)
     {["y" := 10%float]}).1.

Definition exp_engine_at_1 : Engine :=
  match solve_ivp 2 exp_engine 1 with
  | Some (e, _) => e
  | None => exp_engine
  end.

Definition pole_engine : Engine :=
  Engine__init__ PoleModel None (Some 1%float) None None.

(** Values for the examples of the session: the INIT parameter of the
    tests, the session after that INIT, a SOLVE_IVP parameter, the 64-bit
    range of an integer field, and a value returned by a method. *)
Definition init_param : Any :=
  PackedInitParam
    {| init_model := "test_server.SingleExpModel";
       init_t := 0; init_options := ∅ |}.

Definition exp_session : Session :=
  match _init Session__init__ init_param with
  | Some (s, _) => s
  | None => Session__init__
  end.

Definition solve_param : Any :=
  PackedSolveIVPParam {| tn := 1; output_interval := 0.75 |}.

Definition int64_fits (k : Z) : bool :=
  (- 2 ^ 63 <=? k)%Z && (k <? 2 ^ 63)%Z.

Definition mixed_value : pyvalue :=
  PyList [PyFloat 0.5; PyInt 3; PyStr "one"].

(** ** Sequences of calls on an engine *)

Inductive call : Type :=
| call_set_diffvar_values (vdict : gmap string float)
| call_get_diffvar_values
| call_solve_ivp (fuel : nat) (tn : float)
| call_restart (t : option float) (y : option (list float))
    (init_step min_step max_step : option float)
| call_eval (t : option ndarray) (y : option (list ndarray)).

(** The engine after one call, whether the call returned or raised;
    [None] when a solve runs out of fuel. *)
Definition do_call `{OdeSolver} (e : Engine) (c : call) : option Engine :=
  match c with
  | call_set_diffvar_values vdict => Some (set_diffvar_values e vdict).1
  | call_get_diffvar_values => Some e
  | call_solve_ivp fuel tn => fst <$> solve_ivp fuel e tn
  | call_restart t y init_step min_step max_step =>
      Some (restart e t y init_step min_step max_step)
  | call_eval t y => Some (eval e (fun _ => Ok tt) t y).1
  end.

Fixpoint do_calls `{OdeSolver} (e : Engine) (cs : list call) : option Engine :=
  match cs with
  | [] => Some e
  | c :: cs' =>
      match do_call e c with
      | Some e' => do_calls e' cs'
      | None => None
      end
  end.

(** A call that cannot change the number of state values away from [n]:
    any call but a restart with a [y] of another length. *)
Definition keeps_length (n : nat) (c : call) : Prop :=
  match c with
  | call_restart _ (Some y) _ _ _ => length y = n
  | _ => True
  end.

(** An engine all of whose state vectors have [n] values: the current
    state, what the solver integrates, and what the recorded interpolants
    return; the model declares [n] differential variables. *)
Definition sized `{OdeSolver} (n : nat) (e : Engine) : Prop :=
  length (_y e) = n /\
  length (Model.diffvars (model e)) = n /\
  (forall s, _solver e = Some s -> solver_n s = n) /\
  Forall (fun f : DenseOutput => forall tau, length (f tau) = n)
    (_interpolants e).

(** Successive solves to the targets [tns]; the engine after the last one
    when each returned a solution. *)
Fixpoint solve_ivp_each `{OdeSolver} (fuel : nat) (e : Engine)
    (tns : list float) : option Engine :=
  match tns with
  | [] => Some e
  | tn :: tns' =>
      match solve_ivp fuel e tn with
      | Some (e', Ok _) => solve_ivp_each fuel e' tns'
      | _ => None
      end
  end.

(** [n] passes through the body of the loop of [solve_ivp] towards [tn],
    each entered and each with a successful step. *)
Fixpoint loop_passes `{OdeSolver} (n : nat) (e : Engine) (tn : float)
    : option Engine :=
  match n with
  | 0 => Some e
  | S n' =>
      match py_last (_ts e) with
      | Ok tl =>
          if PrimFloat.ltb tl tn then
            match solve_ivp_step e with
            | (e', Ok _) => loop_passes n' e' tn
            | (_, Raise _) => None
            end
          else None
      | Raise _ => None
      end
  end.

(** The solver after each of [n] successive steps from [s] on the model
    [m], each step successful and each leaving its attributes on the
    model for the next; [None] when one of them fails or raises. *)
Fixpoint take_steps `{OdeSolver} (n : nat) (s : solver) (m : Model)
    : option (list solver) :=
  match n with
  | 0 => Some []
  | S n' =>
      match step s m with
      | (s', a, Ok None) =>
          cons s' <$> take_steps n' s' (Model.with_vars m a)
      | _ => None
      end
  end.

(** An engine with a solver and a coherent history: the recorded times
    increase strictly, end at the solver's time, and number one more than
    the recorded interpolants. *)
Definition coherent `{OdeSolver} (e : Engine) : Prop :=
  exists s,
    _solver e = Some s /\
    last (_ts e) = Some (solver_t s) /\
    increasing (_ts e) = true /\
    length (_ts e) = S (length (_interpolants e)).

(** A running engine: coherent, with a current time that is not beyond the
    last recorded time. *)
Definition running `{OdeSolver} (e : Engine) : Prop :=
  coherent e /\
  forall tl, last (_ts e) = Some tl -> PrimFloat.ltb tl (_t e) = false.

(** * Properties *)

(** ** The order of doubles *)

Lemma SFltb_irrefl a : SFltb a a = false.
Proof.
  unfold SFltb, SFcompare.
  destruct a as [s|s| |s m e]; try destruct s; try reflexivity;
    rewrite Z.compare_refl;
    change (Pos.compare_cont Eq m m) with (Pos.compare m m);
    rewrite Pos.compare_refl; reflexivity.
Qed.

Lemma SFltb_trans a b c :
  SFltb a b = true -> SFltb b c = true -> SFltb a c = true.
Proof.
  unfold SFltb, SFcompare.
  destruct a as [sa|sa| |sa ma ea], b as [sb|sb| |sb mb eb],
           c as [sc|sc| |sc mc ec];
    try destruct sa; try destruct sb; try destruct sc;
    try (intros; congruence); try reflexivity;
    change (Pos.compare_cont Eq) with Pos.compare;
    destruct (Z.compare_spec ea eb), (Z.compare_spec eb ec),
             (Z.compare_spec ea ec); try (intros; congruence); try lia;
    destruct (Pos.compare_spec ma mb), (Pos.compare_spec mb mc),
             (Pos.compare_spec ma mc); simpl; try (intros; congruence);
    try lia.
Qed.

Lemma ltb_irrefl x : PrimFloat.ltb x x = false.
Proof. rewrite ltb_spec. apply SFltb_irrefl. Qed.

Lemma ltb_trans x y z :
  PrimFloat.ltb x y = true -> PrimFloat.ltb y z = true ->
  PrimFloat.ltb x z = true.
Proof. rewrite !ltb_spec. apply SFltb_trans. Qed.

Lemma ltb_leb x y : PrimFloat.ltb x y = true -> PrimFloat.leb x y = true.
Proof.
  rewrite ltb_spec, leb_spec. unfold SFltb, SFleb.
  destruct (SFcompare _ _) as [[]|]; congruence.
Qed.

(** ** Setting and getting values by name *)

Section Binding.
Context `{OdeSolver}.

Lemma set_values_from_length names : forall i vdict (y : list float),
  length (set_values_from names i vdict y).1 = length y.
Proof.
  induction names as [|var names IH]; intros i vdict y; simpl; [done|].
  destruct (vdict !! var) as [v|]; [|apply IH].
  destruct (i <? length y)%nat; [|done].
  rewrite IH. apply length_insert.
Qed.

Lemma set_values_from_spec names : forall i vdict (y : list float),
  i + length names <= length y ->
  exists y',
    set_values_from names i vdict y = (y', Ok tt) /\
    length y' = length y /\
    (forall j, j < i -> y' !! j = y !! j) /\
    (forall j, i + length names <= j -> y' !! j = y !! j) /\
    (forall k var, names !! k = Some var ->
       y' !! (i + k) =
         match vdict !! var with Some v => Some v | None => y !! (i + k) end).
Proof.
  induction names as [|var names IH]; intros i vdict y Hlen; simpl in *.
  { exists y. by split_and!. }
  destruct (vdict !! var) as [v|] eqn:Hvar.
  - assert (Hi : (i <? length y)%nat = true) by (apply Nat.ltb_lt; lia).
    rewrite Hi.
    destruct (IH (S i) vdict (<[i:=v]> y))
      as (y' & Hset & Hl & Hlow & Hhigh & Hmid).
    { rewrite length_insert. lia. }
    rewrite length_insert in Hl.
    exists y'. split_and!; [done|done|..].
    + intros j Hj. rewrite Hlow by lia. apply list_lookup_insert_ne. lia.
    + intros j Hj. rewrite Hhigh by lia. apply list_lookup_insert_ne. lia.
    + intros [|k] var' Hk; simpl in Hk.
      * injection Hk as <-. rewrite Hvar, Nat.add_0_r, Hlow by lia.
        apply list_lookup_insert_eq. lia.
      * replace (i + S k) with (S i + k) by lia. rewrite (Hmid k var' Hk).
        destruct (vdict !! var'); [done|].
        apply list_lookup_insert_ne. lia.
  - destruct (IH (S i) vdict y) as (y' & Hset & Hl & Hlow & Hhigh & Hmid);
      [lia|].
    exists y'. split_and!; [done|done|..].
    + intros j Hj. apply Hlow. lia.
    + intros j Hj. apply Hhigh. lia.
    + intros [|k] var' Hk; simpl in Hk.
      * injection Hk as <-. rewrite Hvar, Nat.add_0_r. apply Hlow. lia.
      * replace (i + S k) with (S i + k) by lia. apply (Hmid k var' Hk).
Qed.


End Binding.

Section BindingTheorems.
Context `{OdeSolver}.

Lemma set_y_same (e : Engine) : set_y e (_y e) = e.
Proof. by destruct e. Qed.

Lemma set_values_from_undeclared names name v :
  name ∉ names ->
  forall i (vdict : gmap string float) (y : list float),
    set_values_from names i (<[name:=v]> vdict) y
    = set_values_from names i vdict y.
Proof.
  induction names as [|var names IH]; intros Hname i vdict y; simpl; [done|].
  apply not_elem_of_cons in Hname as [Hne Hname].
  rewrite lookup_insert_ne by done.
  destruct (vdict !! var); [|by apply IH].
  destruct (i <? length y)%nat; [by apply IH|done].
Qed.

Lemma set_values_from_empty names : forall i (y : list float),
  set_values_from names i ∅ y = (y, Ok tt).
Proof.
  induction names as [|var names IH]; intros i y; simpl; [done|].
  rewrite lookup_empty. apply IH.
Qed.


(** C7, as the code has it: no name is ever rejected.  An entry under a
    name that is not declared changes nothing in what
    [set_diffvar_values] does, and a dict of such a name alone returns
    normally and leaves the engine as it was. *)
Theorem set_diffvar_values_ignores_undeclared (e : Engine)
    (vdict : gmap string float) (name : string) (v : float) :
  name ∉ Model.diffvars (model e) ->
  set_diffvar_values e (<[name:=v]> vdict) = set_diffvar_values e vdict /\
  set_diffvar_values e {[name := v]} = (e, Ok tt).
Proof.
  intros Hname. unfold set_diffvar_values. split.
  - by rewrite set_values_from_undeclared.
  - rewrite <- insert_empty, set_values_from_undeclared by done.
    by rewrite set_values_from_empty, set_y_same.
Qed.

(** C10: a new engine has a state vector of as many zeros as the model
    declares differential variables, the time given to the constructor
    (zero by default), the model as it was handed in (nothing of it was
    evaluated or changed), and no solver. *)
Theorem Engine_init_state (m : Model) (t init_step min_step max_step : option float) :
  let e := Engine__init__ m t init_step min_step max_step in
  _y e = replicate (length (Model.diffvars m)) 0%float /\
  length (_y e) = length (Model.diffvars m) /\
  (forall i, i < length (Model.diffvars m) -> _y e !! i = Some 0%float) /\
  _t e = default 0%float t /\
  _t (Engine__init__ m None init_step min_step max_step) = 0%float /\
  model e = m /\
  _solver e = None.
Proof.
  simpl. unfold np_zeros. split_and!; try done.
  - apply length_replicate.
  - intros i Hi. by apply lookup_replicate_2.
Qed.

End BindingTheorems.

(** ** Lists of times *)

Lemma py_lastn_length {A} n (l : list A) :
  length (py_lastn n l) = Nat.min n (length l).
Proof. unfold py_lastn. rewrite length_drop. lia. Qed.

Lemma py_lastn_app {A} (older recent : list A) :
  py_lastn (length recent) (older ++ recent) = recent.
Proof.
  unfold py_lastn. rewrite length_app.
  replace (length older + length recent - length recent) with (length older)
    by lia.
  by rewrite drop_app_length.
Qed.

Lemma py_lastn_suffix {A} n (l : list A) :
  exists older, l = older ++ py_lastn n l.
Proof.
  exists (take (length l - n) l). unfold py_lastn. by rewrite take_drop.
Qed.

Lemma last_drop_lt {A} k (l : list A) :
  k < length l -> last (drop k l) = last l.
Proof.
  revert k. induction l as [|a l IH]; intros k Hk; simpl in *; [lia|].
  destruct k as [|k]; [done|]. simpl.
  rewrite IH by lia. destruct l; [simpl in *; lia|done].
Qed.

Lemma last_py_lastn {A} n (l : list A) :
  0 < n -> last (py_lastn n l) = last l.
Proof.
  intros Hn. unfold py_lastn. destruct l as [|a l]; [done|].
  apply last_drop_lt. simpl. lia.
Qed.

Lemma py_lastn_nil_inv {A} n (l : list A) :
  0 < n -> py_lastn n l = [] -> l = [].
Proof.
  intros Hn Hnil. apply (f_equal length) in Hnil.
  rewrite py_lastn_length in Hnil. simpl in Hnil.
  destruct l; [done|simpl in Hnil; lia].
Qed.

Lemma chain_tail r a l : chain r (a :: l) = true -> chain r l = true.
Proof.
  destruct l as [|b l]; [done|]. simpl. intros Hc.
  by apply andb_prop in Hc as [_ ?].
Qed.

Lemma chain_drop r k l : chain r l = true -> chain r (drop k l) = true.
Proof.
  revert l. induction k as [|k IH]; intros l Hc; [by rewrite drop_0|].
  destruct l as [|a l]; [done|]. simpl. apply IH. by eapply chain_tail.
Qed.

Lemma chain_snoc r l b :
  chain r l = true ->
  (forall a, last l = Some a -> r a b = true) ->
  chain r (l ++ [b]) = true.
Proof.
  induction l as [|a l IH]; intros Hc Hlast; [done|].
  destruct l as [|a' l].
  - simpl. rewrite (Hlast a eq_refl). done.
  - change ((a :: a' :: l) ++ [b]) with (a :: (a' :: l) ++ [b]).
    simpl in Hc. apply andb_prop in Hc as [Hr Hc].
    simpl. rewrite Hr. simpl. apply IH; [done|].
    intros x Hx. apply Hlast. done.
Qed.

Lemma increasing_before_last pre b :
  increasing (pre ++ [b]) = true ->
  Forall (fun x => PrimFloat.ltb x b = true) pre.
Proof.
  unfold increasing. induction pre as [|a pre IH]; intros Hc; [constructor|].
  assert (Hpre : Forall (fun x => PrimFloat.ltb x b = true) pre).
  { apply IH. by eapply chain_tail. }
  constructor; [|done].
  destruct pre as [|a' pre]; simpl in Hc.
  - by rewrite andb_true_r in Hc.
  - apply andb_prop in Hc as [Hr _].
    apply Forall_cons in Hpre as [Ha' _]. by eapply ltb_trans.
Qed.

Lemma searchsorted_left_app pre b rest v :
  Forall (fun x => PrimFloat.ltb x v = true) pre ->
  PrimFloat.ltb b v = false ->
  searchsorted_left (pre ++ b :: rest) v = length pre.
Proof.
  intros Hpre Hb. induction Hpre as [|a pre Ha _ IH]; simpl.
  - by rewrite Hb.
  - by rewrite Ha, IH.
Qed.

Lemma ascending_increasing a pre b :
  increasing (a :: pre ++ [b]) = true -> ascending (a :: pre ++ [b]) = true.
Proof.
  intros Hinc. unfold ascending.
  change (a :: pre ++ [b]) with ((a :: pre) ++ [b]).
  rewrite last_snoc. simpl. apply ltb_leb.
  apply (increasing_before_last (a :: pre) b) in Hinc.
  by apply Forall_cons in Hinc as [? _].
Qed.

Lemma Forall_ltb_trans (l : list float) a b :
  Forall (fun x => PrimFloat.ltb x a = true) l ->
  PrimFloat.ltb a b = true ->
  Forall (fun x => PrimFloat.ltb x b = true) l.
Proof.
  intros Hl Hab. eapply Forall_impl; [exact Hl|].
  intros x Hx. exact (ltb_trans _ _ _ Hx Hab).
Qed.

(** ** The loop of [solve_ivp] *)

Section Solve.
Context `{OdeSolverLaws}.

Lemma py_last_Some {A} (l : list A) x : last l = Some x -> py_last l = Ok x.
Proof. unfold py_last. by intros ->. Qed.

Lemma py_last_Ok {A} (l : list A) x : py_last l = Ok x -> last l = Some x.
Proof. unfold py_last. destruct (last l); [congruence|discriminate]. Qed.

Lemma solve_ivp_step_inv (e e' : Engine) (r : result unit) :
  solve_ivp_step e = (e', r) ->
  _t e' = _t e /\ _y e' = _y e /\
  Model._diffvars (model e') = Model._diffvars (model e) /\
  match r with
  | Ok _ =>
      exists s s' a,
        _solver e = Some s /\ step s (model e) = (s', a, Ok None) /\
        _solver e' = Some s' /\
        _ts e' = _ts e ++ [solver_t s'] /\
        _interpolants e' = _interpolants e ++ [dense_output s']
  | Raise _ =>
      _ts e' = _ts e /\ _interpolants e' = _interpolants e
  end.
Proof.
  unfold solve_ivp_step. destruct (_solver e) as [s|] eqn:Hs.
  - destruct (step s (model e)) as [[s' a] [[msg|]|ex]] eqn:Hstep;
      intros [= <- <-]; simpl; split_and!; try done.
    exists s, s', a. done.
  - intros [= <- <-]. done.
Qed.

Lemma solve_ivp_step_coherent (e e' : Engine) :
  coherent e -> solve_ivp_step e = (e', Ok tt) ->
  coherent e' /\
  exists tl t' f,
    last (_ts e) = Some tl /\ PrimFloat.ltb tl t' = true /\
    _ts e' = _ts e ++ [t'] /\ _interpolants e' = _interpolants e ++ [f].
Proof.
  intros (s0 & Hs0 & Hlast & Hinc & Hlen) Hstep.
  apply solve_ivp_step_inv in Hstep
    as (_ & _ & _ & s & s' & a & Hs & Hst & Hs' & Hts & Hfs).
  rewrite Hs0 in Hs. injection Hs as <-.
  pose proof (step_t _ _ _ _ Hst) as Hlt.
  split.
  - exists s'. rewrite Hts, Hfs, last_snoc, !length_app. simpl.
    split_and!; [done|done| |lia].
    apply chain_snoc; [done|]. intros x Hx. congruence.
  - exists (solver_t s0), (solver_t s'), (dense_output s'). done.
Qed.

Lemma coherent_below (e : Engine) tl tn :
  coherent e -> last (_ts e) = Some tl -> PrimFloat.ltb tl tn = true ->
  Forall (fun x => PrimFloat.ltb x tn = true) (_ts e).
Proof.
  intros (s & _ & _ & Hinc & _) Hlast Hlt.
  apply last_Some in Hlast as [pre Hpre]. rewrite Hpre in *.
  apply Forall_app. split; [|by repeat constructor].
  eapply Forall_ltb_trans; [|exact Hlt].
  by apply increasing_before_last.
Qed.

Lemma solve_ivp_loop_spec fuel : forall (e : Engine) tn e' r,
  coherent e ->
  solve_ivp_loop fuel e tn = Some (e', r) ->
  _t e' = _t e /\ _y e' = _y e /\
  Model._diffvars (model e') = Model._diffvars (model e) /\
  (exists new_ts new_fs,
     _ts e' = _ts e ++ new_ts /\
     _interpolants e' = _interpolants e ++ new_fs /\
     length new_ts = length new_fs) /\
  (r = Ok tt ->
     coherent e' /\
     (exists tl, last (_ts e') = Some tl /\ PrimFloat.ltb tl tn = false) /\
     (e' = e \/
      exists pre tl,
        _ts e' = pre ++ [tl] /\
        Forall (fun x => PrimFloat.ltb x tn = true) pre)).
Proof.
  induction fuel as [|fuel IH]; intros e tn e' r Hco Hloop;
    pose proof Hco as (s & Hs & Hlast & Hinc & Hlen);
    simpl in Hloop; rewrite (py_last_Some _ _ Hlast) in Hloop;
    destruct (PrimFloat.ltb (solver_t s) tn) eqn:Hlt; try discriminate.
  - injection Hloop as <- <-. split_and!; try done.
    + exists [], []. by rewrite !app_nil_r.
    + intros _. split_and!; [done|eauto|by left].
  - destruct (solve_ivp_step e) as [e1 [[]|ex]] eqn:Hstep.
    + destruct (solve_ivp_step_coherent _ _ Hco Hstep)
        as (Hco1 & tl & t1 & f1 & Htl & Hlt1 & Hts1 & Hfs1).
      apply solve_ivp_step_inv in Hstep as (Ht1 & Hy1 & Hd1 & _).
      destruct (IH e1 tn e' r Hco1 Hloop)
        as (Ht & Hy & Hd & (nts & nfs & Hts & Hfs & Hn) & Hok).
      split_and!; try congruence.
      * exists (t1 :: nts), (f1 :: nfs).
        rewrite Hts, Hfs, Hts1, Hfs1, <- !app_assoc. simpl.
        split_and!; [done|done|lia].
      * intros Hr. destruct (Hok Hr) as (Hco' & Hl' & [->|Hpre]).
        { split_and!; [done|done|]. right. exists (_ts e), t1.
          split; [done|]. exact (coherent_below e _ tn Hco Hlast Hlt). }
        { split_and!; [done|done|by right]. }
    + injection Hloop as <- <-.
      apply solve_ivp_step_inv in Hstep as (Ht1 & Hy1 & Hd1 & Hts1 & Hfs1).
      split_and!; try done.
      exists [], []. by rewrite !app_nil_r.
  - injection Hloop as <- <-. split_and!; try done.
    + exists [], []. by rewrite !app_nil_r.
    + intros _. split_and!; [done|eauto|by left].
Qed.

Lemma last_cons_default {A} (x y : A) (l : list A) :
  default x (last (y :: l)) = default y (last l).
Proof.
  destruct l as [|z l]; [done|].
  change (last (y :: z :: l)) with (last (z :: l)).
  destruct (last (z :: l)) eqn:Hl; [done|]. by apply last_None in Hl.
Qed.

(** What the loop records are the steps of the solver: the time and the
    dense output of the solver after each step, in their order. *)
Lemma solve_ivp_loop_steps fuel : forall (e e' : Engine) tn s,
  _solver e = Some s ->
  solve_ivp_loop fuel e tn = Some (e', Ok tt) ->
  exists states,
    take_steps (length states) s (model e) = Some states /\
    _ts e' = _ts e ++ (solver_t <$> states) /\
    _interpolants e' = _interpolants e ++ (dense_output <$> states) /\
    _solver e' = Some (default s (last states)).
Proof.
  assert (Hstop : forall (e : Engine) s,
            _solver e = Some s ->
            exists states,
              take_steps (length states) s (model e) = Some states /\
              _ts e = _ts e ++ (solver_t <$> states) /\
              _interpolants e = _interpolants e ++ (dense_output <$> states) /\
              _solver e = Some (default s (last states))).
  { intros e s Hs. exists []. simpl. by rewrite !app_nil_r. }
  induction fuel as [|fuel IH]; intros e e' tn s Hs Hloop; simpl in Hloop;
    destruct (py_last (_ts e)) as [tl|]; try discriminate;
    destruct (PrimFloat.ltb tl tn); try discriminate;
    try (injection Hloop as <-; by apply Hstop).
  unfold solve_ivp_step in Hloop. rewrite Hs in Hloop.
  destruct (step s (model e)) as [[s' a] [[msg|]|ex]] eqn:Hstep;
    try discriminate.
  apply (IH _ e' tn s') in Hloop as (states & Htake & Hts & Hfs & Hs');
    [|done].
  simpl in Htake, Hts, Hfs.
  exists (s' :: states). split_and!.
  - simpl. by rewrite Hstep, Htake.
  - by rewrite Hts, <- app_assoc.
  - by rewrite Hfs, <- app_assoc.
  - by rewrite last_cons_default.
Qed.

End Solve.

Section SolveTheorems.
Context `{OdeSolverLaws}.

Lemma solve_ivp_prepare_running (e : Engine) s :
  _solver e = Some s ->
  solve_ivp_prepare e
  = (set_history e (py_lastn 2 (_ts e)) (py_lastn 1 (_interpolants e)),
     Ok tt).
Proof. unfold solve_ivp_prepare. by intros ->. Qed.

Lemma set_history_coherent (e : Engine) :
  coherent e ->
  coherent (set_history e (py_lastn 2 (_ts e)) (py_lastn 1 (_interpolants e))).
Proof.
  intros (s & Hs & Hlast & Hinc & Hlen). exists s. simpl.
  split_and!; [done| | |].
  - rewrite last_py_lastn by lia. done.
  - by apply chain_drop.
  - rewrite !py_lastn_length. lia.
Qed.

Lemma solve_ivp_prepare_coherent (e e0 : Engine) :
  _solver e = None \/ coherent e ->
  solve_ivp_prepare e = (e0, Ok tt) ->
  coherent e0 /\ _t e0 = _t e /\ _y e0 = _y e /\ model e0 = model e.
Proof.
  unfold solve_ivp_prepare. intros [Hnone|Hco].
  - rewrite Hnone.
    destruct (LSODA _ _ _ _ _ _ _ _ _) as [s|ex] eqn:Hnew; [|discriminate].
    intros [= <-]. split_and!; try done.
    exists s. simpl. split_and!; try done.
    by rewrite (LSODA_t _ _ _ _ _ _ _ _ _ _ Hnew).
  - pose proof Hco as (s & -> & _). intros [= <-].
    split_and!; try done. by apply set_history_coherent.
Qed.

(** After the loop the solution picks its last segment at [tn]. *)
Lemma sol_segment_last (ts : list float) (fs : list DenseOutput) tn :
  increasing ts = true ->
  length ts = S (length fs) ->
  (length fs = 1 \/
   exists pre tl,
     ts = pre ++ [tl] /\
     Forall (fun x => PrimFloat.ltb x tn = true) pre /\
     PrimFloat.ltb tl tn = false) ->
  sol_segment {| sol_ts := ts; sol_interpolants := fs |} tn = length fs - 1.
Proof.
  intros Hinc Hlen [Hone|(pre & tl & -> & Hpre & Htl)]; unfold sol_segment;
    cbn [sol_ts sol_interpolants].
  - rewrite Hone. destruct (ascending ts); lia.
  - rewrite length_app in Hlen. simpl in Hlen.
    destruct pre as [|a pre].
    { simpl in Hlen. assert (length fs = 0) as -> by lia.
      destruct (ascending _); lia. }
    change ((a :: pre) ++ [tl]) with (a :: pre ++ [tl]) in *.
    rewrite (ascending_increasing a pre tl Hinc).
    change (a :: pre ++ [tl]) with ((a :: pre) ++ [tl]).
    rewrite (searchsorted_left_app (a :: pre) tl [] tn Hpre Htl).
    simpl in *. lia.
Qed.

Lemma sol_call_last ts fs f tn :
  last fs = Some f ->
  sol_segment {| sol_ts := ts; sol_interpolants := fs |} tn = length fs - 1 ->
  sol_call {| sol_ts := ts; sol_interpolants := fs |} tn = Ok (f tn).
Proof.
  intros Hlast Hseg. unfold sol_call. rewrite Hseg.
  cbn [sol_interpolants]. rewrite last_lookup in Hlast.
  replace (length fs - 1) with (Init.Nat.pred (length fs)) by lia.
  unfold DenseOutput in *. by rewrite Hlast.
Qed.

Lemma OdeSolution_init_inv ts fs sol :
  OdeSolution_init ts fs = Ok sol ->
  sol = {| sol_ts := ts; sol_interpolants := fs |}.
Proof.
  unfold OdeSolution_init.
  destruct (negb _); [discriminate|].
  destruct (negb _); [discriminate|]. congruence.
Qed.

Lemma OdeSolution_init_increasing ts fs :
  increasing ts = true -> length ts = S (length fs) ->
  OdeSolution_init ts fs
  = Ok {| sol_ts := ts; sol_interpolants := fs |}.
Proof.
  intros Hinc Hlen. unfold OdeSolution_init.
  rewrite Hinc, orb_true_r. simpl.
  rewrite Hlen, Nat.eqb_refl. done.
Qed.

Lemma solve_ivp_finish_inv (e e' : Engine) tn sol :
  solve_ivp_finish e tn = (e', Ok sol) ->
  exists f,
    last (_interpolants e) = Some f /\
    e' = set_y (set_t e tn) (f tn) /\
    sol = {| sol_ts := _ts e; sol_interpolants := _interpolants e |}.
Proof.
  unfold solve_ivp_finish. simpl.
  destruct (py_last (_interpolants e)) as [f|ex] eqn:Hf; [|discriminate].
  intros [= <- Hsol]. exists f. apply py_last_Ok in Hf.
  split_and!; [done|done|]. by apply OdeSolution_init_inv in Hsol.
Qed.

Lemma solve_ivp_inv fuel (e e' : Engine) tn sol :
  solve_ivp fuel e tn = Some (e', Ok sol) ->
  exists e0 e1,
    solve_ivp_prepare e = (e0, Ok tt) /\
    solve_ivp_loop fuel e0 tn = Some (e1, Ok tt) /\
    solve_ivp_finish e1 tn = (e', Ok sol).
Proof.
  unfold solve_ivp.
  destruct (solve_ivp_prepare e) as [e0 [[]|ex]]; [|discriminate].
  destruct (solve_ivp_loop fuel e0 tn) as [[e1 [[]|ex]]|] eqn:Hloop;
    try discriminate.
  intros [= Hfin]. exists e0, e1. done.
Qed.

Lemma loop_passes_loop n : forall (e e1 : Engine) tn fuel,
  loop_passes n e tn = Some e1 ->
  solve_ivp_loop (n + fuel) e tn = solve_ivp_loop fuel e1 tn.
Proof.
  induction n as [|n IH]; intros e e1 tn fuel Hn; simpl in *.
  { by injection Hn as <-. }
  destruct (py_last (_ts e)) as [tl|]; [|discriminate].
  destruct (PrimFloat.ltb tl tn); [|discriminate].
  destruct (solve_ivp_step e) as [e2 [[]|ex]]; [|discriminate].
  by apply IH.
Qed.

Lemma loop_passes_inv n : forall (e e1 : Engine) tn,
  loop_passes n e tn = Some e1 ->
  _t e1 = _t e /\ _y e1 = _y e /\
  exists new_ts new_fs,
    _ts e1 = _ts e ++ new_ts /\
    _interpolants e1 = _interpolants e ++ new_fs /\
    length new_ts = n /\ length new_fs = n.
Proof.
  induction n as [|n IH]; intros e e1 tn Hn; simpl in *.
  { injection Hn as <-. split_and!; try done.
    exists [], []. by rewrite !app_nil_r. }
  destruct (py_last (_ts e)) as [tl|]; [|discriminate].
  destruct (PrimFloat.ltb tl tn); [|discriminate].
  destruct (solve_ivp_step e) as [e2 [[]|ex]] eqn:Hstep; [|discriminate].
  apply solve_ivp_step_inv in Hstep
    as (Ht2 & Hy2 & _ & s & s' & a & _ & _ & _ & Hts2 & Hfs2).
  destruct (IH e2 e1 tn Hn) as (Ht & Hy & nts & nfs & Hts & Hfs & Hl1 & Hl2).
  split_and!; try congruence.
  exists (solver_t s' :: nts), (dense_output s' :: nfs).
  rewrite Hts, Hfs, Hts2, Hfs2, <- !app_assoc. simpl.
  split_and!; [done|done|lia|lia].
Qed.

Lemma solve_ivp_loop_more fuel : forall (e e' : Engine) tn r k,
  solve_ivp_loop fuel e tn = Some (e', r) ->
  solve_ivp_loop (fuel + k) e tn = Some (e', r).
Proof.
  induction fuel as [|fuel IH]; intros e e' tn r k Hloop; simpl in *.
  - destruct (py_last (_ts e)) as [tl|] eqn:Hl.
    + destruct (PrimFloat.ltb tl tn) eqn:Hlt; [discriminate|].
      destruct k; simpl; by rewrite Hl, Hlt.
    + destruct k; simpl; by rewrite Hl.
  - destruct (py_last (_ts e)) as [tl|]; [|done].
    destruct (PrimFloat.ltb tl tn); [|done].
    destruct (solve_ivp_step e) as [e2 [[]|ex]]; [|done]. by apply IH.
Qed.

Lemma solve_ivp_each_time fuel tns : forall (e e' : Engine) tn,
  solve_ivp_each fuel e (tns ++ [tn]) = Some e' -> _t e' = tn.
Proof.
  induction tns as [|tn0 tns IH]; intros e e' tn Heach; simpl in Heach.
  - destruct (solve_ivp fuel e tn) as [[e1 [sol|ex]]|] eqn:Hsolve;
      try discriminate.
    injection Heach as <-.
    apply solve_ivp_inv in Hsolve as (? & ? & _ & _ & Hfin).
    by apply solve_ivp_finish_inv in Hfin as (f & _ & -> & _).
  - destruct (solve_ivp fuel e tn0) as [[e1 [sol|ex]]|]; try discriminate.
    by apply (IH e1).
Qed.

(** C1: a running engine that [solve_ivp(tn)] brings to a solution is
    then at time [tn] exactly, holds the solution's value at [tn] as its
    state (the last recorded interpolant taken at [tn]), and has returned
    the solution made of its recorded times and interpolants: the
    retained ones followed, for each step the solver took and in their
    order, by the solver's time after the step and its dense output for
    the step.  It is running again.  Such a call does return a solution
    whenever the stepper reaches [tn]: when some number [n] of successful
    steps takes the last recorded time up to or past [tn].  And after
    successive solves that each returned, the time is the last target. *)
Theorem solve_ivp_success (e : Engine) (tn : float) :
  running e ->
  (forall fuel e' sol,
     solve_ivp fuel e tn = Some (e', Ok sol) ->
     _t e' = tn /\
     sol_call sol tn = Ok (_y e') /\
     sol = {| sol_ts := _ts e'; sol_interpolants := _interpolants e' |} /\
     (exists s states,
        _solver e = Some s /\
        take_steps (length states) s (model e) = Some states /\
        _ts e' = py_lastn 2 (_ts e) ++ (solver_t <$> states) /\
        _interpolants e'
        = py_lastn 1 (_interpolants e) ++ (dense_output <$> states) /\
        _solver e' = Some (default s (last states))) /\
     (exists f, last (_interpolants e') = Some f /\ _y e' = f tn) /\
     running e') /\
  (forall n e1,
     _interpolants e <> [] ->
     loop_passes n (solve_ivp_prepare e).1 tn = Some e1 ->
     (forall tl, last (_ts e1) = Some tl -> PrimFloat.ltb tl tn = false) ->
     forall fuel, n <= fuel ->
     exists e' sol, solve_ivp fuel e tn = Some (e', Ok sol)) /\
  (forall fuel tns e',
     solve_ivp_each fuel e (tns ++ [tn]) = Some e' -> _t e' = tn).
Proof.
  intros [Hco Htime]. split_and!.
  - intros fuel e' sol Hsolve.
    apply solve_ivp_inv in Hsolve as (e0 & e1 & Hprep & Hloop & Hfin).
    pose proof Hco as (s & Hs & _).
    rewrite (solve_ivp_prepare_running e s Hs) in Hprep.
    injection Hprep as <-.
    pose proof (set_history_coherent e Hco) as Hco0.
    destruct (solve_ivp_loop_spec _ _ _ _ _ Hco0 Hloop)
      as (Ht1 & Hy1 & _ & (nts & nfs & Hts1 & Hfs1 & Hn) & Hok).
    destruct (Hok eq_refl) as (Hco1 & (tl & Htl & Hge) & Hcase).
    destruct (solve_ivp_loop_steps fuel
                (set_history e (py_lastn 2 (_ts e))
                   (py_lastn 1 (_interpolants e))) e1 tn s Hs Hloop)
      as (states & Htake & Hsts & Hsfs & Hsolver).
    apply solve_ivp_finish_inv in Hfin as (f & Hf & -> & ->).
    simpl in *.
    split_and!; [done| |done|by exists s, states|by exists f|].
    + pose proof Hco1 as (s1 & _ & _ & Hinc1 & Hlen1).
      apply sol_call_last; [done|].
      apply sol_segment_last; [done|done|].
      destruct Hcase as [->|(pre & tl' & Hpre & Hall)].
      * left. simpl in *. rewrite py_lastn_length.
        destruct (_interpolants e); simpl in *; [discriminate|lia].
      * right. exists pre, tl'. split_and!; [done|done|].
        rewrite Hpre, last_snoc in Htl. congruence.
    + split.
      * destruct Hco1 as (s1 & ? & ? & ? & ?). exists s1. done.
      * simpl. intros tl' Htl'. congruence.
  - intros n e1 Hfs Hpasses Hreach fuel Hfuel.
    pose proof Hco as (s & Hs & _).
    rewrite (solve_ivp_prepare_running e s Hs) in Hpasses. simpl in Hpasses.
    pose proof (set_history_coherent e Hco) as Hco0.
    assert (Hloop : solve_ivp_loop fuel
              (set_history e (py_lastn 2 (_ts e))
                 (py_lastn 1 (_interpolants e))) tn = Some (e1, Ok tt)).
    { replace fuel with (n + (fuel - n)) by lia.
      rewrite (loop_passes_loop _ _ _ _ _ Hpasses).
      assert (Hl : exists tl, last (_ts e1) = Some tl).
      { apply loop_passes_inv in Hpasses as (_ & _ & nts & _ & Hts & _).
        destruct (last (_ts e1)) eqn:Hl1; [eauto|].
        apply last_None in Hl1. rewrite Hl1 in Hts. symmetry in Hts.
        apply app_eq_nil in Hts as [Hts _]. simpl in Hts.
        apply py_lastn_nil_inv in Hts; [|lia].
        destruct Hco as (? & _ & Hlast & _). rewrite Hts in Hlast. done. }
      destruct Hl as [tl Hl].
      destruct (fuel - n); simpl;
        by rewrite (py_last_Some _ _ Hl), (Hreach _ Hl). }
    destruct (solve_ivp_loop_spec _ _ _ _ _ Hco0 Hloop)
      as (_ & _ & _ & (nts & nfs & Hts1 & Hfs1 & Hn) & Hok).
    destruct (Hok eq_refl) as ((s1 & _ & _ & Hinc1 & Hlen1) & _ & _).
    unfold solve_ivp.
    rewrite (solve_ivp_prepare_running e s Hs), Hloop.
    unfold solve_ivp_finish. simpl in *.
    destruct (last (_interpolants e1)) as [f|] eqn:Hf.
    + rewrite (py_last_Some _ _ Hf). simpl.
      rewrite OdeSolution_init_increasing by done. eauto.
    + apply last_None in Hf. rewrite Hf in Hfs1. symmetry in Hfs1.
      apply app_eq_nil in Hfs1 as [Hfs1 _].
      apply py_lastn_nil_inv in Hfs1; [done|lia].
  - intros fuel tns e'. apply solve_ivp_each_time.
Qed.


Lemma solve_ivp_loop_appends fuel : forall (e e' : Engine) tn r,
  solve_ivp_loop fuel e tn = Some (e', r) ->
  _t e' = _t e /\ _y e' = _y e /\
  exists new_ts new_fs,
    _ts e' = _ts e ++ new_ts /\
    _interpolants e' = _interpolants e ++ new_fs /\
    length new_ts = length new_fs.
Proof.
  assert (Hnil : forall e : Engine,
            exists new_ts new_fs : list _,
              _ts e = _ts e ++ new_ts /\
              _interpolants e = _interpolants e ++ new_fs /\
              length new_ts = length new_fs).
  { intros e. exists [], []. by rewrite !app_nil_r. }
  induction fuel as [|fuel IH]; intros e e' tn r Hloop; simpl in Hloop;
    destruct (py_last (_ts e)) as [tl|]; try (by injection Hloop as <- <-);
    destruct (PrimFloat.ltb tl tn); try (by injection Hloop as <- <-);
    try discriminate.
  destruct (solve_ivp_step e) as [e1 [[]|ex]] eqn:Hstep.
  - apply solve_ivp_step_inv in Hstep
      as (Ht1 & Hy1 & _ & s & s' & a & _ & _ & _ & Hts1 & Hfs1).
    destruct (IH e1 e' tn r Hloop) as (Ht & Hy & nts & nfs & Hts & Hfs & Hn).
    split_and!; try congruence.
    exists (solver_t s' :: nts), (dense_output s' :: nfs).
    rewrite Hts, Hfs, Hts1, Hfs1, <- !app_assoc. simpl.
    split_and!; [done|done|lia].
  - injection Hloop as <- <-.
    apply solve_ivp_step_inv in Hstep as (Ht1 & Hy1 & _ & Hts1 & Hfs1).
    split_and!; try done. exists [], []. by rewrite !app_nil_r.
Qed.

(** C2, as the code has it: there is no check of the direction.  On a
    running engine with a recorded interpolant, [solve_ivp(tn)] with [tn]
    below the current time takes no step of the solver and raises
    nothing: it cuts the history as any continuing call does, sets the
    time back to [tn], sets the state to the last recorded interpolant
    taken at [tn], and returns a solution. *)
Theorem solve_ivp_backward (e : Engine) (tn : float) (fuel : nat) :
  running e -> _interpolants e <> [] ->
  PrimFloat.ltb tn (_t e) = true ->
  exists e' sol f,
    solve_ivp fuel e tn = Some (e', Ok sol) /\
    _t e' = tn /\
    last (_interpolants e) = Some f /\ _y e' = f tn /\
    _solver e' = _solver e /\ model e' = model e /\
    _ts e' = py_lastn 2 (_ts e) /\
    _interpolants e' = [f] /\
    sol = {| sol_ts := _ts e'; sol_interpolants := _interpolants e' |}.
Proof.
  intros [Hco Htime] Hfs Hback.
  pose proof Hco as (s & Hs & Hlast & Hinc & Hlen).
  pose proof (set_history_coherent e Hco) as (s0 & _ & Hlast0 & Hinc0 & Hlen0).
  destruct (last (_interpolants e)) as [f|] eqn:Hf;
    [|by apply last_None in Hf].
  apply last_Some in Hf as [older Hf].
  assert (Hone : py_lastn 1 (_interpolants e) = [f]).
  { rewrite Hf. apply (py_lastn_app older [f]). }
  assert (Hstop : PrimFloat.ltb (solver_t s) tn = false).
  { destruct (PrimFloat.ltb (solver_t s) tn) eqn:Hlt; [|done].
    rewrite <- (Htime _ Hlast). symmetry. by eapply ltb_trans. }
  exists (set_y (set_t (set_history e (py_lastn 2 (_ts e)) [f]) tn) (f tn)).
  eexists _, f. split_and!; try done.
  unfold solve_ivp. rewrite (solve_ivp_prepare_running e s Hs), Hone.
  assert (Hloop : solve_ivp_loop fuel
            (set_history e (py_lastn 2 (_ts e)) [f]) tn
          = Some (set_history e (py_lastn 2 (_ts e)) [f], Ok tt)).
  { assert (Hlast2 : py_last (py_lastn 2 (_ts e)) = Ok (solver_t s)).
    { apply py_last_Some. by rewrite last_py_lastn by lia. }
    destruct fuel; simpl; by rewrite Hlast2, Hstop. }
  rewrite Hloop. unfold solve_ivp_finish. simpl.
  simpl in Hlen0. rewrite Hone in Hlen0.
  by rewrite OdeSolution_init_increasing.
Qed.

(** C3, as the code has it: when, after [n] successful steps, the step
    that the loop takes next reports a failure with the message [msg],
    [solve_ivp] raises [SolverError(msg)].  The engine's time and state
    are those from before the call (they are not moved to a step
    boundary); the recorded times and interpolants are the retained ones
    followed by those of the [n] completed steps, and the solver is
    kept. *)
Theorem solve_ivp_step_failure (e e0 e1 : Engine) (tn : float) (n : nat)
    (tl : float) (s s' : solver) (a : Model.attrs) (msg : string)
    (fuel : nat) :
  solve_ivp_prepare e = (e0, Ok tt) ->
  loop_passes n e0 tn = Some e1 ->
  last (_ts e1) = Some tl -> PrimFloat.ltb tl tn = true ->
  _solver e1 = Some s -> step s (model e1) = (s', a, Ok (Some msg)) ->
  n < fuel ->
  exists e',
    solve_ivp fuel e tn = Some (e', Raise (Exception SolverError msg)) /\
    _t e' = _t e /\ _y e' = _y e /\
    _solver e' = Some s' /\
    _ts e' = _ts e1 /\ _interpolants e' = _interpolants e1 /\
    exists new_ts new_fs,
      _ts e1 = _ts e0 ++ new_ts /\
      _interpolants e1 = _interpolants e0 ++ new_fs /\
      length new_ts = n /\ length new_fs = n.
Proof.
  intros Hprep Hpasses Hlast Hlt Hs Hstep Hfuel.
  exists (set_solver (set_model e1 (Model.with_vars (model e1) a)) (Some s')).
  destruct (loop_passes_inv _ _ _ _ Hpasses) as (Ht & Hy & Hnew).
  assert (Ht0 : _t e0 = _t e /\ _y e0 = _y e).
  { unfold solve_ivp_prepare in Hprep. destruct (_solver e).
    - by injection Hprep as <-.
    - destruct (LSODA _ _ _ _ _ _ _ _ _); [|discriminate].
      by injection Hprep as <-. }
  destruct Ht0 as [Ht0 Hy0]. simpl.
  split_and!; try congruence; try done.
  unfold solve_ivp. rewrite Hprep.
  replace fuel with (n + S (fuel - S n)) by lia.
  rewrite (loop_passes_loop _ _ _ _ _ Hpasses). simpl.
  rewrite (py_last_Some _ _ Hlast), Hlt.
  unfold solve_ivp_step. by rewrite Hs, Hstep.
Qed.

(** C4: a [solve_ivp] on an engine that holds a solver keeps of the
    recorded times the last two and of the recorded interpolants the
    last one, before the loop takes any step: the solver, the model, the
    time and the state are still those of before.  The loop runs on that
    history, so whatever the call ends with, the engine then holds those
    two times and that interpolant followed by what the new steps
    recorded. *)
Theorem solve_ivp_prunes_history (e : Engine) (s : solver) (tn : float) :
  _solver e = Some s ->
  let e0 :=
    set_history e (py_lastn 2 (_ts e)) (py_lastn 1 (_interpolants e)) in
  solve_ivp_prepare e = (e0, Ok tt) /\
  _solver e0 = Some s /\ model e0 = model e /\
  _t e0 = _t e /\ _y e0 = _y e /\
  (forall older a b, _ts e = older ++ [a; b] -> _ts e0 = [a; b]) /\
  (forall older f, _interpolants e = older ++ [f] -> _interpolants e0 = [f]) /\
  length (_ts e0) = Nat.min 2 (length (_ts e)) /\
  length (_interpolants e0) = Nat.min 1 (length (_interpolants e)) /\
  (forall fuel,
     solve_ivp fuel e tn =
       match solve_ivp_loop fuel e0 tn with
       | None => None
       | Some (e1, Raise ex) => Some (e1, Raise ex)
       | Some (e1, Ok _) => Some (solve_ivp_finish e1 tn)
       end) /\
  (forall fuel e' r,
     solve_ivp fuel e tn = Some (e', r) ->
     exists new_ts new_fs,
       _ts e' = py_lastn 2 (_ts e) ++ new_ts /\
       _interpolants e' = py_lastn 1 (_interpolants e) ++ new_fs /\
       length new_ts = length new_fs).
Proof.
  intros Hs. cbv zeta.
  pose proof (solve_ivp_prepare_running e s Hs) as Hprep.
  split_and!; try done; cbn [_ts _interpolants set_history].
  - intros older a b ->. apply (py_lastn_app older [a; b]).
  - intros older f ->. apply (py_lastn_app older [f]).
  - apply py_lastn_length.
  - apply py_lastn_length.
  - intros fuel. unfold solve_ivp. by rewrite Hprep.
  - intros fuel e' r. unfold solve_ivp. rewrite Hprep.
    destruct (solve_ivp_loop fuel _ tn) as [[e1 [[]|ex]]|] eqn:Hloop;
      try discriminate;
      destruct (solve_ivp_loop_appends _ _ _ _ _ Hloop)
        as (_ & _ & nts & nfs & Hts & Hfs & Hn).
    + unfold solve_ivp_finish. simpl.
      destruct (py_last (_interpolants e1));
        intros [= <- _]; simpl; by exists nts, nfs.
    + intros [= <- _]. by exists nts, nfs.
Qed.

End SolveTheorems.

(** ** The Euler stepper keeps the promises of a stepper *)

Lemma Euler_step_cases (s : Euler) (m : Model) s' a r :
  Euler_step s m = (s', a, r) ->
  (r = Ok None /\
   PrimFloat.ltb (euler_t s) (euler_t s') = true /\
   length (euler_y s') = length (euler_y s)) \/
  (r <> Ok None /\ s' = s).
Proof.
  unfold Euler_step.
  destruct (euler_fun s m _ _) as [m' [ders|ex]].
  - destruct (finite_scalars ders) as [dy|].
    + destruct ((length dy =? length (euler_y s))%nat
                && PrimFloat.ltb (euler_t s) (euler_t s + euler_h s))
        eqn:Hok.
      * intros [= <- <- <-]. left. apply andb_prop in Hok as [Hlen Hlt].
        apply Nat.eqb_eq in Hlen. simpl.
        split_and!; [done|done|]. rewrite length_zip_with. lia.
      * intros [= <- <- <-]. by right.
    + intros [= <- <- <-]. by right.
  - intros [= <- <- <-]. by right.
Qed.

#[export] Instance Euler_laws : OdeSolverLaws.
Proof.
  split; simpl.
  - intros f t0 y0 tb h0 hmin hmax rtol atol s. unfold Euler_init.
    destruct (PrimFloat.ltb 0 hmax); [|discriminate]. by intros [= <-].
  - intros f t0 y0 tb h0 hmin hmax rtol atol s. unfold Euler_init.
    destruct (PrimFloat.ltb 0 hmax); [|discriminate]. by intros [= <-].
  - intros s m s' a Hstep.
    by apply Euler_step_cases in Hstep as [(_ & ? & _)|[? _]].
  - intros s m s' a r Hstep Hr.
    by apply Euler_step_cases in Hstep as [(? & _)|[_ ->]].
  - intros s m s' a r Hstep.
    by apply Euler_step_cases in Hstep as [(_ & _ & ?)|[_ ->]].
  - intros s tau. unfold Euler_dense_output. apply length_imap.
Qed.

(** ** The claims on examples *)

Lemma exp_engine_at_1_running : running exp_engine_at_1.
Proof.
  split.
  - eexists. split_and!; [reflexivity|..]; by vm_compute.
  - intros tl Htl. vm_compute in Htl. injection Htl as <-. by vm_compute.
Qed.

Lemma solve_ivp_success_witness :
  exists e' sol,
    solve_ivp 2 exp_engine_at_1 2 = Some (e', Ok sol) /\
    _t e' = 2%float /\ sol_call sol 2 = Ok (_y e') /\
    _y e' = [0.625%float].
Proof.
  destruct (solve_ivp_success exp_engine_at_1 2 exp_engine_at_1_running)
    as (Hpart & Htot & _).
  edestruct (Htot 2) as (e' & sol & Hsolve).
  - intros Hnil. vm_compute in Hnil. discriminate.
  - reflexivity.
  - intros tl Htl. vm_compute in Htl. injection Htl as <-. reflexivity.
  - apply le_n.
  - exists e', sol. split; [exact Hsolve|].
    destruct (Hpart 2 e' sol Hsolve) as (Ht & Hy & _).
    split_and!; [assumption|assumption|].
    vm_compute in Hsolve. by injection Hsolve as <- _.
Defined.

(** C2 fails on the code: the engine that stands at [t = 1] after a solve
    takes [solve_ivp(0.5)] without any error, and is then at [t = 0.5]. *)
Lemma solve_ivp_backward_accepted :
  ~ (forall (e : Engine) (tn : float) (fuel : nat),
       PrimFloat.ltb tn (_t e) = true ->
       exists err, solve_ivp fuel e tn = Some (e, Raise err)).
Proof.
  intros Hclaim.
  destruct (Hclaim exp_engine_at_1 0.5%float 0 eq_refl) as [err Herr].
  vm_compute in Herr. discriminate.
Qed.

Lemma solve_ivp_backward_witness :
  exists e' sol f,
    solve_ivp 0 exp_engine_at_1 0.5 = Some (e', Ok sol) /\
    _t e' = 0.5%float /\
    last (_interpolants exp_engine_at_1) = Some f /\
    _y e' = f 0.5%float.
Proof.
  destruct (solve_ivp_backward exp_engine_at_1 0.5 0 exp_engine_at_1_running)
    as (e' & sol & f & Hsolve & Ht & Hf & Hy & _).
  - intros Hnil. vm_compute in Hnil. discriminate.
  - reflexivity.
  - exists e', sol, f. split_and!; assumption.
Defined.

(** C3 fails on the code: with the pole model and unit steps the first
    step succeeds and ends at [t = 1], the second reports a failure;
    [solve_ivp(3)] raises [SolverError], and the engine's time is still
    [0], not the boundary [1] of the completed step. *)
Lemma solve_ivp_failure_keeps_old_time :
  ~ (forall (e e' : Engine) (tn : float) (fuel : nat) (msg : string),
       solve_ivp fuel e tn = Some (e', Raise (Exception SolverError msg)) ->
       last (_ts e') = Some (_t e')).
Proof.
  intros Hclaim.
  pose (e' := match solve_ivp 2 pole_engine 3 with
              | Some (e', _) => e'
              | None => pole_engine
              end).
  specialize (Hclaim pole_engine e' 3%float 2 "Unexpected istate in LSODA."
                eq_refl).
  vm_compute in Hclaim. discriminate.
Qed.

Lemma solve_ivp_step_failure_witness :
  exists e',
    solve_ivp 2 pole_engine 3
    = Some (e', Raise (Exception SolverError "Unexpected istate in LSODA.")) /\
    _t e' = 0%float /\ _y e' = [0%float] /\ _ts e' = [0%float; 1%float].
Proof.
  epose proof (solve_ivp_step_failure pole_engine _ _ 3 1 1 _ _ _
                 "Unexpected istate in LSODA." 2 eq_refl eq_refl eq_refl
                 eq_refl eq_refl eq_refl (le_n 2))
    as (e' & Hsolve & Ht & Hy & _ & Hts & _).
  exists e'. split_and!; assumption.
Defined.

Lemma solve_ivp_prunes_history_witness :
  exists e' r,
    solve_ivp 2 exp_engine_at_1 2 = Some (e', r) /\
    exists new_ts new_fs,
      _ts e' = [0.5%float; 1%float] ++ new_ts /\
      _interpolants e' = py_lastn 1 (_interpolants exp_engine_at_1) ++ new_fs /\
      length new_ts = length new_fs.
Proof.
  edestruct (solve_ivp_prunes_history exp_engine_at_1 _ 2 eq_refl)
    as (_ & _ & _ & _ & _ & _ & _ & _ & _ & _ & Hall).
  destruct (solve_ivp 2 exp_engine_at_1 2) as [[e' r]|] eqn:Hsolve.
  - exists e', r. split; [reflexivity|]. exact (Hall 2 e' r Hsolve).
  - vm_compute in Hsolve. discriminate.
Defined.



(** C7 fails on the code: a value written under ["z"], a name the model
    does not declare, is not rejected; the call returns normally. *)
Lemma set_diffvar_values_accepts_unknown_name :
  ~ (forall (e : Engine) (vdict : gmap string float) (name : string),
       name ∉ Model.diffvars (model e) -> is_Some (vdict !! name) ->
       exists e' err, set_diffvar_values e vdict = (e', Raise err)).
Proof.
  intros Hclaim.
  destruct (Hclaim exp_engine {["z" := 1%float]} "z") as (e' & err & Herr).
  - vm_compute. intros Hin. apply elem_of_cons in Hin as [Hz|Hin];
      [discriminate|by apply elem_of_nil in Hin].
  - by exists 1%float.
  - vm_compute in Herr. discriminate.
Qed.

Lemma set_diffvar_values_ignores_undeclared_witness :
  set_diffvar_values exp_engine {["z" := 1%float]} = (exp_engine, Ok tt).
Proof.
  apply (set_diffvar_values_ignores_undeclared exp_engine ∅ "z" 1%float).
  vm_compute. intros Hin. apply elem_of_cons in Hin as [Hz|Hin].
  - discriminate.
  - by apply elem_of_nil in Hin.
Defined.

(** C9 fails on the code: [restart] takes a [y] of any length; after
    [restart(y=[1, 2])] an engine on a model with one differential variable
    has a state vector of two. *)
Lemma restart_changes_length :
  ~ (forall (e : Engine) (t : option float) (y : option (list float))
       (init_step min_step max_step : option float),
       length (_y e) = length (Model.diffvars (model e)) ->
       length (_y (restart e t y init_step min_step max_step))
       = length (Model.diffvars (model e))).
Proof.
  intros Hclaim.
  specialize (Hclaim exp_engine None (Some [1%float; 2%float]) None None None
                eq_refl).
  vm_compute in Hclaim. discriminate.
Qed.


(** ** The length of the state vector *)

Section Length.
Context `{OdeSolverLaws}.

Lemma eval_ode_diffvars (m : Model) t y :
  Model._diffvars (Model.eval_ode m t y).1 = Model._diffvars m.
Proof.
  unfold Model.eval_ode.
  destruct (Model.bind_diffvars _ _ _ _) as [a [[]|ex]]; [|done].
  by destruct (Model.calc_ode m t a) as [a' [[]|ex]].
Qed.

Lemma solve_ivp_prepare_sized n (e e0 : Engine) r :
  sized n e -> solve_ivp_prepare e = (e0, r) -> sized n e0.
Proof.
  intros (Hy & Hd & Hs & Hfs). unfold solve_ivp_prepare.
  destruct (_solver e) as [s|] eqn:Hsolver.
  - intros [= <- <-]. split_and!; [done|done| |]; simpl.
    + by rewrite Hsolver.
    + unfold py_lastn. by apply Forall_drop.
  - destruct (LSODA _ _ _ _ _ _ _ _ _) as [s|ex] eqn:Hnew.
    + intros [= <- <-]. split_and!; [done|done| |]; simpl.
      * intros s' [= <-]. by rewrite (LSODA_n _ _ _ _ _ _ _ _ _ _ Hnew).
      * constructor.
    + intros [= <- <-]. split_and!; [done|done| |done]. by rewrite Hsolver.
Qed.

Lemma solve_ivp_step_sized n (e e' : Engine) r :
  sized n e -> solve_ivp_step e = (e', r) -> sized n e'.
Proof.
  intros Hsized. pose proof Hsized as (Hy & Hd & Hs & Hfs).
  unfold solve_ivp_step.
  destruct (_solver e) as [s|] eqn:Hsolver; [|by intros [= <- <-]].
  destruct (step s (model e)) as [[s' a] message] eqn:Hstep.
  pose proof (step_n _ _ _ _ _ Hstep) as Hn.
  rewrite (Hs s eq_refl) in Hn.
  destruct message as [[msg|]|ex]; intros [= <- <-];
    (split_and!; [done|done|by intros ? [= <-]|]); simpl; [done| |done].
  apply Forall_app. split; [done|]. repeat constructor.
  intros tau. by rewrite dense_output_n.
Qed.

Lemma solve_ivp_loop_sized n fuel : forall (e e' : Engine) tn r,
  sized n e -> solve_ivp_loop fuel e tn = Some (e', r) -> sized n e'.
Proof.
  induction fuel as [|fuel IH]; intros e e' tn r Hsized; simpl;
    destruct (py_last (_ts e)) as [tl|]; try (by intros [= <- <-]);
    destruct (PrimFloat.ltb tl tn); try (by intros [= <- <-]);
    try discriminate.
  destruct (solve_ivp_step e) as [e1 [[]|ex]] eqn:Hstep.
  - apply IH. by eapply solve_ivp_step_sized.
  - intros [= <- <-]. by eapply solve_ivp_step_sized.
Qed.

Lemma solve_ivp_finish_sized n (e e' : Engine) tn r :
  sized n e -> solve_ivp_finish e tn = (e', r) -> sized n e'.
Proof.
  intros Hsized. pose proof Hsized as (Hy & Hd & Hs & Hfs).
  unfold solve_ivp_finish. simpl.
  destruct (py_last (_interpolants e)) as [f|ex] eqn:Hf.
  - intros [= <- <-]. split_and!; try done. simpl.
    apply py_last_Ok, last_Some in Hf as [older Hf]. rewrite Hf in Hfs.
    apply Forall_app in Hfs as [_ Hlast].
    by apply Forall_cons in Hlast as [? _].
  - by intros [= <- <-].
Qed.

Lemma solve_ivp_sized n fuel (e e' : Engine) tn r :
  sized n e -> solve_ivp fuel e tn = Some (e', r) -> sized n e'.
Proof.
  intros Hsized. unfold solve_ivp.
  destruct (solve_ivp_prepare e) as [e0 r0] eqn:Hprep.
  pose proof (solve_ivp_prepare_sized _ _ _ _ Hsized Hprep) as Hsized0.
  destruct r0 as [[]|ex]; [|by intros [= <- <-]].
  destruct (solve_ivp_loop fuel e0 tn) as [[e1 r1]|] eqn:Hloop;
    [|discriminate].
  pose proof (solve_ivp_loop_sized _ _ _ _ _ _ Hsized0 Hloop) as Hsized1.
  destruct r1 as [[]|ex]; [|by intros [= <- <-]].
  intros [= Hfin]. by eapply solve_ivp_finish_sized.
Qed.

Lemma do_call_sized n (e e' : Engine) c :
  sized n e -> keeps_length n c -> do_call e c = Some e' -> sized n e'.
Proof.
  intros Hsized Hkeeps. pose proof Hsized as (Hy & Hd & Hs & Hfs).
  destruct c as [vdict| |fuel tn|t y i0 mn mx|t y]; simpl.
  - intros [= <-]. unfold set_diffvar_values.
    pose proof (set_values_from_length (Model.diffvars (model e)) 0 vdict (_y e))
      as Hlen.
    destruct (set_values_from _ _ _ _) as [y' r]. simpl in *.
    split_and!; try done. simpl. congruence.
  - by intros [= <-].
  - destruct (solve_ivp fuel e tn) as [[e1 r]|] eqn:Hsolve; [|discriminate].
    intros [= <-]. by eapply solve_ivp_sized.
  - intros [= <-]. unfold restart.
    destruct t as [t|], y as [y|]; simpl in *; by split_and!.
  - intros [= <-]. unfold eval.
    pose proof (eval_ode_diffvars (model e) (default (Scalar (_t e)) t)
                  (default (Scalar <$> _y e) y)) as Hvars.
    destruct (Model.eval_ode _ _ _) as [m' [ders|ex]]; simpl in *;
      split_and!; try done; unfold Model.diffvars in *; simpl; congruence.
Qed.

(** C9, as the code has it: an engine is made with as many state values
    as the model declares differential variables, and every call keeps
    that number, whether it returns or raises, as long as no [restart] is
    given a [y] of another length.  A [restart] with a [y] takes that [y]
    as the state vector whatever its length. *)
Theorem state_vector_length (m : Model)
    (t0 init_step min_step max_step : option float)
    (calls : list call) (e' : Engine) :
  Forall (keeps_length (length (Model.diffvars m))) calls ->
  do_calls (Engine__init__ m t0 init_step min_step max_step) calls = Some e' ->
  length (_y e') = length (Model.diffvars m) /\
  length (Model.diffvars (model e')) = length (Model.diffvars m) /\
  forall (e : Engine) t y i0 mn mx, _y (restart e t (Some y) i0 mn mx) = y.
Proof.
  intros Hcalls Hdo.
  assert (Hsized : sized (length (Model.diffvars m)) e').
  { revert Hdo.
    assert (Hinit : sized (length (Model.diffvars m))
                      (Engine__init__ m t0 init_step min_step max_step)).
    { split_and!; [apply length_replicate|done|done|constructor]. }
    revert Hinit. generalize (Engine__init__ m t0 init_step min_step max_step).
    induction Hcalls as [|c calls Hc _ IH]; intros e Hsized; simpl.
    - by intros [= <-].
    - destruct (do_call e c) as [e1|] eqn:Hcall; [|discriminate].
      apply IH. by eapply do_call_sized. }
  destruct Hsized as (Hy & Hd & _). split_and!; [done|done|].
  intros e t y i0 mn mx. unfold restart. by destruct t.
Qed.

End Length.

Lemma state_vector_length_witness :
  match
    do_calls (Engine__init__ SingleExpModel None None None None)
      [call_set_diffvar_values {["y" := 10%float]};
       call_solve_ivp 2 1;
       call_restart None (Some [5%float]) None None None;
       call_solve_ivp 2 2;
       call_eval None None]
  with
  | Some e' => length (_y e') = 1
  | None => False
  end.
Proof.
  destruct (do_calls _ _) as [e'|] eqn:Hdo.
  - eapply (state_vector_length SingleExpModel None None None None);
      [|exact Hdo].
    repeat constructor.
  - vm_compute in Hdo. discriminate.
Defined.

(** ** Every engine that holds a solver is running *)

Section Running.
Context `{OdeSolverLaws}.

Lemma running_frame (e e' : Engine) :
  _solver e' = _solver e -> _ts e' = _ts e ->
  _interpolants e' = _interpolants e -> _t e' = _t e ->
  running e -> running e'.
Proof.
  intros Hs Hts Hfs Ht [(s & ? & ? & ? & ?) Htime]. split.
  - exists s. rewrite Hs, Hts, Hfs. done.
  - rewrite Hts, Ht. done.
Qed.

Lemma solve_ivp_step_running (e e' : Engine) r :
  running e -> solve_ivp_step e = (e', r) -> running e'.
Proof.
  intros [Hco Htime] Hstep. destruct r as [[]|ex].
  - destruct (solve_ivp_step_coherent _ _ Hco Hstep)
      as (Hco' & tl & t' & f & Htl & Hlt & Hts & _).
    apply solve_ivp_step_inv in Hstep as (Ht & _).
    split; [done|]. intros tl'. rewrite Hts, last_snoc, Ht. intros [= <-].
    destruct (PrimFloat.ltb t' (_t e)) eqn:Hbad; [|done].
    rewrite <- (Htime tl Htl). symmetry. by eapply ltb_trans.
  - destruct Hco as (s & Hs & Hlast & Hinc & Hlen).
    unfold solve_ivp_step in Hstep. rewrite Hs in Hstep.
    destruct (step s (model e)) as [[s' a] message] eqn:Hst.
    assert (Hsame : solver_t s' = solver_t s).
    { apply (step_failed_t _ _ _ _ _ Hst).
      destruct message as [[msg|]|ex']; [done| |done].
      discriminate Hstep. }
    assert (He' : e' = set_solver
                         (set_model e (Model.with_vars (model e) a)) (Some s')).
    { by destruct message as [[msg|]|ex']; injection Hstep as <-. }
    subst e'. split.
    + exists s'. simpl. rewrite Hsame. done.
    + simpl. done.
Qed.

Lemma solve_ivp_loop_running fuel : forall (e e' : Engine) tn r,
  running e -> solve_ivp_loop fuel e tn = Some (e', r) ->
  running e' /\
  (r = Ok tt -> forall tl, last (_ts e') = Some tl ->
                PrimFloat.ltb tl tn = false).
Proof.
  induction fuel as [|fuel IH]; intros e e' tn r Hrun; simpl;
    destruct (py_last (_ts e)) as [tl|] eqn:Hl;
    try (intros [= <- <-]; by split);
    destruct (PrimFloat.ltb tl tn) eqn:Hlt; try discriminate.
  - intros [= <- <-]. split; [done|].
    intros _ tl' Htl'. apply py_last_Ok in Hl. congruence.
  - destruct (solve_ivp_step e) as [e1 [[]|ex]] eqn:Hstep.
    + apply IH. by eapply solve_ivp_step_running.
    + intros [= <- <-]. split; [|done]. by eapply solve_ivp_step_running.
  - intros [= <- <-]. split; [done|].
    intros _ tl' Htl'. apply py_last_Ok in Hl. congruence.
Qed.

Lemma solve_ivp_keeps_running fuel (e e' : Engine) tn r :
  _solver e = None \/ running e ->
  solve_ivp fuel e tn = Some (e', r) ->
  _solver e' = None \/ running e'.
Proof.
  intros Hstart. unfold solve_ivp.
  destruct (solve_ivp_prepare e) as [e0 [[]|ex]] eqn:Hprep.
  - assert (Hrun0 : running e0).
    { destruct (solve_ivp_prepare_coherent e e0) as (Hco0 & Ht0 & _); [|done|].
      { destruct Hstart as [?|[? _]]; [by left|by right]. }
      split; [done|]. intros tl Htl. rewrite Ht0.
      unfold solve_ivp_prepare in Hprep.
      destruct Hstart as [Hnone|[(s & Hs & _) Htime]].
      - rewrite Hnone in Hprep.
        destruct (LSODA _ _ _ _ _ _ _ _ _); [|discriminate].
        injection Hprep as <-. simpl in Htl. injection Htl as <-.
        apply ltb_irrefl.
      - rewrite Hs in Hprep. injection Hprep as <-. simpl in Htl.
        rewrite last_py_lastn in Htl by lia. by apply Htime. }
    destruct (solve_ivp_loop fuel e0 tn) as [[e1 [[]|ex]]|] eqn:Hloop;
      try discriminate;
      destruct (solve_ivp_loop_running _ _ _ _ _ Hrun0 Hloop)
        as [Hrun1 Hexit].
    + intros [= Hfin]. right. unfold solve_ivp_finish in Hfin. simpl in Hfin.
      assert (Hrun2 : running (set_t e1 tn)).
      { destruct Hrun1 as [(s & ? & ? & ? & ?) _]. split.
        - by exists s.
        - simpl. by apply Hexit. }
      destruct (py_last (_interpolants e1)); injection Hfin as <- _;
        [|done].
      by eapply running_frame; [..|exact Hrun2].
    + intros [= <- _]. by right.
  - unfold solve_ivp_prepare in Hprep. intros [= <- _].
    destruct (_solver e) eqn:Hs; [discriminate|].
    destruct (LSODA _ _ _ _ _ _ _ _ _); [discriminate|].
    injection Hprep as <-. by left.
Qed.

Lemma do_calls_running (cs : list call) : forall (e e' : Engine),
  _solver e = None \/ running e ->
  do_calls e cs = Some e' ->
  _solver e' = None \/ running e'.
Proof.
  induction cs as [|c cs IH]; intros e e' Hstart; simpl.
  { by intros [= <-]. }
  destruct (do_call e c) as [e1|] eqn:Hcall; [|discriminate].
  apply IH. destruct c as [vdict| |fuel tn|t y i0 mn mx|t y]; simpl in Hcall.
  - injection Hcall as <-. unfold set_diffvar_values.
    destruct (set_values_from _ _ _ _) as [y' r]. simpl.
    destruct Hstart as [?|Hrun]; [by left|right].
    by eapply running_frame; [..|exact Hrun].
  - by injection Hcall as <-.
  - destruct (solve_ivp fuel e tn) as [[e2 r]|] eqn:Hsolve; [|discriminate].
    injection Hcall as <-. by eapply solve_ivp_keeps_running.
  - injection Hcall as <-. by left.
  - injection Hcall as <-. unfold eval.
    destruct (Model.eval_ode _ _ _) as [m' [ders|ex]]; simpl;
      (destruct Hstart as [?|Hrun]; [by left|right]);
      by eapply running_frame; [..|exact Hrun].
Qed.

(** X4: an engine reached from a new one by any calls of its methods, in
    any order and whether they returned or raised, either holds no solver
    or is running: its recorded times increase strictly and end at the
    solver's time, and its current time is not beyond the last of
    them. *)
Lemma reachable_running (m : Model)
    (t0 init_step min_step max_step : option float)
    (cs : list call) (e' : Engine) :
  do_calls (Engine__init__ m t0 init_step min_step max_step) cs = Some e' ->
  _solver e' = None \/ running e'.
Proof. apply do_calls_running. by left. Qed.

End Running.

(** ** The session *)

(** C8 fails on the code: [_get_current_val] has no [try], unlike the
    handlers beside it.  On a session without an engine (none was ever
    initialised) a GET_CURRENT_VAL message makes [process] raise
    [AttributeError] instead of returning a response, and the loop of
    [main] ends there, with no answer to that message or to any after
    it. *)
Theorem process_get_current_val_raises `{OdeSolver} `{!Runtime}
    (fuel : nat) (message : bytes) (rest : list bytes) (p : Any) :
  ParseFromString message
  = Ok {| command := GET_CURRENT_VAL; parameter := p |} ->
  process fuel Session__init__ message
  = Some (Session__init__, Raise (Exception AttributeError "engine")) /\
  main fuel (message :: rest)
  = Some ([], Some (Exception AttributeError "engine")).
Proof.
  intros Hparse. unfold main, main_loop, process.
  rewrite Hparse. by simpl.
Qed.

Lemma process_get_current_val_raises_witness :
  main 0 [inl {| command := GET_CURRENT_VAL; parameter := NotSet |};
          inl {| command := INIT; parameter := NotSet |}]
  = Some ([], Some (Exception AttributeError "engine")).
Proof.
  apply (process_get_current_val_raises (H0 := test_runtime) 0
           (inl {| command := GET_CURRENT_VAL; parameter := NotSet |})
           [inl {| command := INIT; parameter := NotSet |}] NotSet).
  reflexivity.
Defined.

(** C6 fails on the code: the grid is [np.arange(tprev, tn + tstep,
    tstep)].  From [t = 0] with target [1] and interval [0.75] the
    returned grid is [0, 0.75, 1.5]: it does not end at the target, and
    its last point lies beyond it. *)
Theorem solve_ivp_grid_beyond_target :
  main 2
    [inl {| command := INIT;
            parameter :=
              PackedInitParam
                {| init_model := "test_server.SingleExpModel";
                   init_t := 0; init_options := ∅ |} |};
     inl {| command := SOLVE_IVP;
            parameter :=
              PackedSolveIVPParam {| tn := 1; output_interval := 0.75 |} |}]
  = Some ([inr (StatusResponse true "");
           inr (SolutionResponse [0%float; 0.75%float; 1.5%float]
                  [[0%float; 0%float; 0%float]] [])],
          None) /\
  PrimFloat.ltb 1 1.5 = true.
Proof. split; reflexivity. Qed.

(** The second advance of the repository's own server test, from [t = 1]
    to [2] with interval [0.1]: the grid has eleven points and the last
    one is above [2]. *)
Lemma arange_second_advance :
  match np_arange 1 (2 + 0.1) 0.1 with
  | Ok grid =>
      length grid = 11 /\
      match last grid with
      | Some t_last => PrimFloat.ltb 2 t_last = true
      | None => False
      end
  | Raise _ => False
  end.
Proof. vm_compute. split; reflexivity. Qed.

(** * Further properties of the engine *)

Section EngineMore.
Context `{OdeSolverLaws}.

Lemma solve_ivp_fresh (e e' : Engine) (tn : float) (fuel : nat)
    (sol : OdeSolution) :
  _solver e = None ->
  solve_ivp fuel e tn = Some (e', Ok sol) ->
  exists s0 states,
    LSODA Model.eval_ode (_t e) (_y e) infinity (_init_step e)
      (_min_step e) (_max_step e) 1e-6%float 1e-10%float = Ok s0 /\
    take_steps (length states) s0 (model e) = Some states /\
    states <> [] /\
    _ts e' = _t e :: (solver_t <$> states) /\
    _interpolants e' = dense_output <$> states /\
    _solver e' = Some (default s0 (last states)) /\
    PrimFloat.ltb (_t e) tn = true /\
    _t e' = tn /\ sol_call sol tn = Ok (_y e') /\
    sol = {| sol_ts := _ts e'; sol_interpolants := _interpolants e' |} /\
    running e'.
Proof.
  intros Hnone Hsolve.
  pose proof (solve_ivp_keeps_running _ _ _ _ _ (or_introl Hnone) Hsolve)
    as Hrun.
  apply solve_ivp_inv in Hsolve as (e0 & e1 & Hprep & Hloop & Hfin).
  destruct (solve_ivp_prepare_coherent e e0 (or_introl Hnone) Hprep)
    as (Hco0 & _).
  unfold solve_ivp_prepare in Hprep. rewrite Hnone in Hprep.
  destruct (LSODA _ _ _ _ _ _ _ _ _) as [s0|ex] eqn:Hnew; [|discriminate].
  injection Hprep as <-.
  destruct (solve_ivp_loop_spec _ _ _ _ _ Hco0 Hloop)
    as (Ht1 & Hy1 & _ & _ & Hok).
  destruct (Hok eq_refl) as (Hco1 & (tl & Htl & Hge) & Hcase).
  destruct (solve_ivp_loop_steps fuel
              (set_history (set_solver e (Some s0)) [_t e] []) e1 tn s0
              eq_refl Hloop)
    as (states & Htake & Hts1 & Hfs1 & Hsolver).
  apply solve_ivp_finish_inv in Hfin as (f & Hf & -> & ->).
  simpl in *.
  assert (Hstates : states <> []).
  { intros ->. rewrite Hfs1 in Hf. done. }
  destruct Hcase as [->|(pre & tl' & Hpre & Hall)].
  { simpl in Hf. done. }
  assert (Hlt : PrimFloat.ltb (_t e) tn = true).
  { rewrite Hts1 in Hpre. destruct pre as [|p pre].
    - destruct states; [done|]. apply (f_equal length) in Hpre.
      simpl in Hpre. rewrite length_fmap in Hpre. lia.
    - injection Hpre as <- _. by apply Forall_cons in Hall as [? _]. }
  exists s0, states. split_and!; try done.
  - pose proof Hco1 as (s1 & _ & _ & Hinc1 & Hlen1).
    apply sol_call_last; [done|].
    apply sol_segment_last; [done|done|]. right. exists pre, tl'.
    split_and!; [done|done|]. rewrite Hpre, last_snoc in Htl. congruence.
  - destruct Hrun as [Hbad|Hrun]; [|done].
    destruct Hco1 as (s1 & Hs1 & _). simpl in Hbad. congruence.
Qed.

(** X1: [solve_ivp] on an engine without a solver (a new one, or one
    after [restart]) that returns a solution has built its solver from the
    engine's time and state, has taken at least one step, and [tn] was
    after the current time.  The recorded times start afresh at the old
    current time, whatever history was there before, followed by the
    solver's time after each step; the recorded interpolants are the
    solver's dense outputs of those steps, and the solver kept is the one
    the last step left.  The engine is then at [tn], holds the
    solution's value there, and is running. *)
Theorem solve_ivp_from_no_solver (e e' : Engine) (tn : float) (fuel : nat)
    (sol : OdeSolution) :
  _solver e = None ->
  solve_ivp fuel e tn = Some (e', Ok sol) ->
  exists s0 states,
    LSODA Model.eval_ode (_t e) (_y e) infinity (_init_step e)
      (_min_step e) (_max_step e) 1e-6%float 1e-10%float = Ok s0 /\
    take_steps (length states) s0 (model e) = Some states /\
    states <> [] /\
    _ts e' = _t e :: (solver_t <$> states) /\
    _interpolants e' = dense_output <$> states /\
    _solver e' = Some (default s0 (last states)) /\
    PrimFloat.ltb (_t e) tn = true /\
    _t e' = tn /\ sol_call sol tn = Ok (_y e') /\
    sol = {| sol_ts := _ts e'; sol_interpolants := _interpolants e' |} /\
    running e'.
Proof. apply solve_ivp_fresh. Qed.

(** X2: on an engine without a solver, [solve_ivp(tn)] with a [tn] that is
    not after the current time (the current time itself, an earlier time,
    a NaN) raises [IndexError]: the new solver is kept, no step is taken,
    and the current time has already been overwritten with [tn]. *)
Theorem solve_ivp_no_solver_not_after (e : Engine) (tn : float) (fuel : nat)
    (s0 : solver) :
  _solver e = None ->
  LSODA Model.eval_ode (_t e) (_y e) infinity (_init_step e)
    (_min_step e) (_max_step e) 1e-6%float 1e-10%float = Ok s0 ->
  PrimFloat.ltb (_t e) tn = false ->
  solve_ivp fuel e tn
  = Some (set_t (set_history (set_solver e (Some s0)) [_t e] []) tn,
          Raise (Exception IndexError "list index out of range")).
Proof.
  intros Hnone Hnew Hlt. unfold solve_ivp, solve_ivp_prepare.
  rewrite Hnone, Hnew.
  assert (Hloop : solve_ivp_loop fuel
            (set_history (set_solver e (Some s0)) [_t e] []) tn
          = Some (set_history (set_solver e (Some s0)) [_t e] [], Ok tt)).
  { destruct fuel; simpl; by rewrite Hlt. }
  by rewrite Hloop.
Qed.

Lemma eval_frame {R : Type} (e : Engine)
    (func : Model -> result R) (t : option ndarray)
    (y : option (list ndarray)) :
  let e' := (eval e func t y).1 in
  _t e' = _t e /\ _y e' = _y e /\ _solver e' = _solver e /\
  _ts e' = _ts e /\ _interpolants e' = _interpolants e /\
  _init_step e' = _init_step e /\ _min_step e' = _min_step e /\
  _max_step e' = _max_step e /\
  Model.diffvars (model e') = Model.diffvars (model e).
Proof.
  cbv zeta. unfold eval.
  pose proof (eval_ode_diffvars (model e) (default (Scalar (_t e)) t)
                (default (Scalar <$> _y e) y)) as Hvars.
  by destruct (Model.eval_ode _ _ _) as [m' [ders|ex]].
Qed.

(** X3: [eval] leaves the engine's time, state, step bounds, solver and
    recorded history as they are, whether it returns or raises and
    whichever [t] and [y] it is given; of the model only the attributes
    change, never the declared names. *)
Theorem eval_keeps_timeline {R : Type} (e : Engine)
    (func : Model -> result R) (t : option ndarray)
    (y : option (list ndarray)) :
  let e' := (eval e func t y).1 in
  _t e' = _t e /\ _y e' = _y e /\ _solver e' = _solver e /\
  _ts e' = _ts e /\ _interpolants e' = _interpolants e /\
  _init_step e' = _init_step e /\ _min_step e' = _min_step e /\
  _max_step e' = _max_step e /\
  Model.diffvars (model e') = Model.diffvars (model e).
Proof. apply eval_frame. Qed.

End EngineMore.

Lemma solve_ivp_from_no_solver_witness :
  exists e' sol,
    solve_ivp 2 exp_engine 1 = Some (e', Ok sol) /\
    _ts e' = [0%float; 0.5%float; 1%float] /\ _t e' = 1%float /\
    sol_call sol 1 = Ok [2.5%float].
Proof.
  destruct (solve_ivp 2 exp_engine 1) as [[e' [sol|ex]]|] eqn:Hsolve;
    [|vm_compute in Hsolve; discriminate..].
  destruct (solve_ivp_from_no_solver exp_engine e' 1 2 sol eq_refl Hsolve)
    as (s0 & states & _ & _ & _ & Hts & _ & _ & _ & Ht & Hy & _).
  exists e', sol. split_and!; [reflexivity| |exact Ht|].
  - vm_compute in Hsolve. by injection Hsolve as <- _.
  - rewrite Hy. vm_compute in Hsolve. by injection Hsolve as <- _.
Defined.

Lemma solve_ivp_no_solver_not_after_witness :
  exists e',
    solve_ivp 0 exp_engine 0
    = Some (e', Raise (Exception IndexError "list index out of range")) /\
    _t e' = 0%float.
Proof.
  eexists. split.
  - eapply (solve_ivp_no_solver_not_after exp_engine 0 0); reflexivity.
  - reflexivity.
Defined.

Lemma reachable_running_witness :
  running exp_engine_at_1.
Proof.
  destruct (reachable_running SingleExpModel None None None None
              [call_set_diffvar_values {["y" := 10%float]};
               call_solve_ivp 2 1] exp_engine_at_1)
    as [Hnone|Hrun].
  - by vm_compute.
  - vm_compute in Hnone. discriminate.
  - exact Hrun.
Defined.

(** * Further properties of the binding of names *)

Section BindingMore.
Context `{OdeSolver}.

Lemma get_values_from_ok names : forall i (y : list float) d,
  is_ok (get_values_from names i y d) = true <->
  names = [] \/ i + length names <= length y.
Proof.
  induction names as [|var names IH]; intros i y d; simpl.
  { split; [by left|done]. }
  destruct (y !! i) as [v|] eqn:Hv.
  - rewrite IH. apply lookup_lt_Some in Hv. split.
    + intros [->|Hle]; right; simpl; lia.
    + intros [?|Hle]; [done|]. destruct names; [by left|right; simpl in *; lia].
  - apply lookup_ge_None in Hv. split; [done|].
    intros [?|Hle]; [done|lia].
Qed.

Lemma get_diffvar_values_is_ok (e : Engine) :
  (exists d, get_diffvar_values e = Ok d) <->
  length (Model.diffvars (model e)) <= length (_y e).
Proof.
  unfold get_diffvar_values.
  pose proof (get_values_from_ok (Model.diffvars (model e)) 0 (_y e) ∅) as Hok.
  destruct (get_values_from _ _ _ _) as [d|ex] eqn:Hget; simpl in Hok.
  - split; [|eauto]. intros _.
    destruct (proj1 Hok eq_refl) as [->|?]; simpl; lia.
  - split; [by intros [d ?]|]. intros Hle.
    assert (false = true); [|done]. apply Hok.
    destruct (Model.diffvars (model e)); [by left|by right].
Qed.

(** X5: [get_diffvar_values] returns a dict exactly when the state vector
    has an entry for every declared variable, and raises [IndexError]
    when it is shorter. *)
Theorem get_diffvar_values_ok (e : Engine) :
  (exists d, get_diffvar_values e = Ok d) <->
  length (Model.diffvars (model e)) <= length (_y e).
Proof. apply get_diffvar_values_is_ok. Qed.

Lemma get_values_from_NoDup names : forall i (y : list float) d0 d,
  NoDup names ->
  get_values_from names i y d0 = Ok d ->
  (forall k var, names !! k = Some var -> d !! var = y !! (i + k)) /\
  (forall name, name ∉ names -> d !! name = d0 !! name).
Proof.
  induction names as [|var names IH]; intros i y d0 d Hnd; simpl.
  { intros [= <-]. split; [|done]. intros k var Hk. by destruct k. }
  apply NoDup_cons in Hnd as [Hvar Hnd].
  destruct (y !! i) as [v|] eqn:Hv; [|discriminate].
  intros Hget. destruct (IH _ _ _ _ Hnd Hget) as [Hin Hout]. split.
  - intros [|k] var' Hk; simpl in Hk.
    + injection Hk as <-. rewrite (Hout var Hvar), lookup_insert_eq.
      by rewrite Nat.add_0_r.
    + replace (i + S k) with (S i + k) by lia. by apply Hin.
  - intros name Hname. apply not_elem_of_cons in Hname as [Hne Hname].
    rewrite (Hout name Hname). by apply lookup_insert_ne.
Qed.

(** X6: on a model whose declared names are distinct (as [Model.__init__]
    makes them), writing back the dict that [get_diffvar_values] returned
    changes nothing: [set_diffvar_values] returns and the engine is the
    same. *)
Theorem get_then_set_diffvar_values (e : Engine) (d : gmap string float) :
  NoDup (Model.diffvars (model e)) ->
  get_diffvar_values e = Ok d ->
  set_diffvar_values e d = (e, Ok tt).
Proof.
  intros Hnd Hget.
  assert (Hlen : length (Model.diffvars (model e)) <= length (_y e)).
  { apply get_diffvar_values_is_ok. eauto. }
  unfold get_diffvar_values in Hget.
  destruct (get_values_from_NoDup _ _ _ _ _ Hnd Hget) as [Hin _].
  unfold set_diffvar_values.
  destruct (set_values_from_spec (Model.diffvars (model e)) 0 d (_y e))
    as (y' & -> & Hl & _ & Hhigh & Hmid); [done|].
  assert (y' = _y e) as ->; [|by rewrite set_y_same].
  apply list_eq. intros j.
  destruct (Model.diffvars (model e) !! j) as [var|] eqn:Hj.
  - specialize (Hmid j var Hj). specialize (Hin j var Hj). simpl in *.
    rewrite Hmid, Hin. by destruct (_y e !! j).
  - apply Hhigh. simpl. by apply lookup_ge_None.
Qed.

(** X7: two writes compose into one: [set_diffvar_values(m1)] followed by
    [set_diffvar_values(m2)] leaves the engine that a single
    [set_diffvar_values] of [m2] laid over [m1] leaves (for a name in
    both, the later value wins). *)
Theorem set_diffvar_values_twice (e : Engine) (m1 m2 : gmap string float) :
  length (Model.diffvars (model e)) <= length (_y e) ->
  set_diffvar_values (set_diffvar_values e m1).1 m2
  = set_diffvar_values e (m2 ∪ m1).
Proof.
  intros Hlen. unfold set_diffvar_values.
  destruct (set_values_from_spec (Model.diffvars (model e)) 0 m1 (_y e))
    as (y1 & -> & Hl1 & _ & Hhigh1 & Hmid1); [done|].
  destruct (set_values_from_spec (Model.diffvars (model e)) 0 (m2 ∪ m1) (_y e))
    as (y3 & -> & Hl3 & _ & Hhigh3 & Hmid3); [done|].
  simpl.
  destruct (set_values_from_spec (Model.diffvars (model e)) 0 m2 y1)
    as (y2 & -> & Hl2 & _ & Hhigh2 & Hmid2); [lia|].
  assert (y2 = y3) as ->; [|done].
  apply list_eq. intros j.
  destruct (Model.diffvars (model e) !! j) as [var|] eqn:Hj.
  - specialize (Hmid1 j var Hj). specialize (Hmid2 j var Hj).
    specialize (Hmid3 j var Hj). simpl in *.
    rewrite Hmid2, Hmid3, Hmid1, lookup_union.
    by destruct (m2 !! var), (m1 !! var).
  - apply lookup_ge_None in Hj. simpl in *.
    by rewrite Hhigh2, Hhigh1, Hhigh3.
Qed.

End BindingMore.

Lemma get_diffvar_values_ok_witness :
  exists d, get_diffvar_values exp_engine = Ok d.
Proof.
  apply (proj2 (get_diffvar_values_ok exp_engine)). apply le_n.
Defined.

(** * Properties of the model *)

Lemma getattr_setattr (a : Model.attrs) name o name' :
  Model.getattr (Model.setattr a name o) name'
  = if String.eqb name name' then Ok o else Model.getattr a name'.
Proof.
  induction a as [|[k v] a IH]; simpl.
  - rewrite String.eqb_sym. by destruct (String.eqb name' name).
  - destruct (String.eqb k name) eqn:Hk; simpl.
    + apply String.eqb_eq in Hk as ->.
      by destruct (String.eqb name name').
    + destruct (String.eqb k name') eqn:Hk'; [|done].
      apply String.eqb_eq in Hk' as ->. by rewrite String.eqb_sym, Hk.
Qed.

Lemma setattr_keys (a : Model.attrs) name o x :
  x ∈ (Model.setattr a name o).*1 <-> x = name \/ x ∈ a.*1.
Proof.
  induction a as [|[k v] a IH]; simpl.
  - rewrite list_elem_of_singleton. split; [by left|]. intros [?|Hin]; [done|].
    by apply elem_of_nil in Hin.
  - destruct (String.eqb k name) eqn:Hk; simpl.
    + apply String.eqb_eq in Hk as ->. rewrite !elem_of_cons. tauto.
    + rewrite !elem_of_cons, IH. tauto.
Qed.

Lemma setattr_NoDup (a : Model.attrs) name o :
  NoDup a.*1 -> NoDup (Model.setattr a name o).*1.
Proof.
  induction a as [|[k v] a IH]; simpl; intros Hnd.
  - apply NoDup_singleton.
  - apply NoDup_cons in Hnd as [Hk Hnd].
    destruct (String.eqb k name) eqn:Hkn; simpl.
    + by apply NoDup_cons.
    + apply NoDup_cons. split; [|by apply IH].
      rewrite setattr_keys. intros [->|Hin]; [|done].
      by rewrite String.eqb_refl in Hkn.
Qed.

Lemma setattr_fresh (a : Model.attrs) name o :
  name ∉ a.*1 -> Model.setattr a name o = a ++ [(name, o)].
Proof.
  induction a as [|[k v] a IH]; simpl; intros Hname; [done|].
  apply not_elem_of_cons in Hname as [Hne Hname].
  destruct (String.eqb k name) eqn:Hk.
  - apply String.eqb_eq in Hk. congruence.
  - by rewrite IH.
Qed.

Lemma initialize_NoDup (inits : list (string * Model.pyobj)) :
  forall a : Model.attrs,
    NoDup a.*1 ->
    NoDup (foldl (fun a kv => Model.setattr a kv.1 kv.2) a inits).*1.
Proof.
  induction inits as [|[k v] inits IH]; intros a Hnd; simpl; [done|].
  apply IH. by apply setattr_NoDup.
Qed.

Lemma initialize_distinct (inits : list (string * Model.pyobj)) :
  forall a : Model.attrs,
    NoDup (a ++ inits).*1 ->
    foldl (fun a kv => Model.setattr a kv.1 kv.2) a inits = a ++ inits.
Proof.
  induction inits as [|[k v] inits IH]; intros a Hnd; simpl.
  { by rewrite app_nil_r. }
  rewrite setattr_fresh.
  - rewrite IH; rewrite <- app_assoc; done.
  - rewrite fmap_app in Hnd. apply NoDup_app in Hnd as (_ & Hdisj & _).
    intros Hin. apply (Hdisj k Hin). simpl. by left.
Qed.

Lemma getattr_elem_of (a : Model.attrs) name o :
  NoDup a.*1 -> Model.getattr a name = Ok o <-> (name, o) ∈ a.
Proof.
  induction a as [|[k v] a IH]; simpl; intros Hnd.
  - split; [discriminate|]. intros Hin. by apply elem_of_nil in Hin.
  - apply NoDup_cons in Hnd as [Hk Hnd]. rewrite elem_of_cons.
    destruct (String.eqb k name) eqn:Hkn.
    + apply String.eqb_eq in Hkn as ->. split.
      * intros [= ->]. by left.
      * intros [[= ->]|Hin]; [done|].
        destruct Hk. by apply (list_elem_of_fmap_2 fst) in Hin.
    + rewrite (IH Hnd). split; [by right|].
      intros [[= -> ->]|Hin]; [|done]. by rewrite String.eqb_refl in Hkn.
Qed.

Lemma filter_keys_NoDup (a : Model.attrs) :
  NoDup a.*1 ->
  NoDup (filter (fun kv => Model.is_diffvar kv.2 = true) a).*1.
Proof.
  induction a as [|[k v] a IH]; intros Hnd; [constructor|].
  rewrite fmap_cons in Hnd. apply NoDup_cons in Hnd as [Hk Hnd].
  cbn [filter list_filter].
  destruct (decide _); [|by apply IH].
  rewrite fmap_cons. apply NoDup_cons. split; [|by apply IH].
  intros Hin. apply Hk.
  apply list_elem_of_fmap in Hin as ([k' v'] & -> & Hin).
  apply list_elem_of_filter in Hin as [_ Hin].
  by apply (list_elem_of_fmap_2 fst) in Hin.
Qed.

(** X8: [Model.__init__] declares each name once: the declared names are
    distinct, and a name is declared exactly when the attribute it names
    holds a differential variable once [initialize_vars] is done.  When
    [initialize_vars] assigns every attribute once, the declared names are
    the names it bound to differential variables, in the order of the
    assignments. *)
Theorem Model_init_diffvars (initialize_vars : list (string * Model.pyobj))
    (calc : ndarray -> Model.attrs -> Model.attrs * result unit) :
  let m := Model.__init__ initialize_vars calc in
  NoDup (Model.diffvars m) /\
  (forall name,
     name ∈ Model.diffvars m <->
     exists value der,
       Model.getattr (Model.vars m) name
       = Ok (Model.DifferentialVariable value der)) /\
  (NoDup initialize_vars.*1 ->
   Model.diffvars m
   = (filter (fun kv => Model.is_diffvar kv.2 = true) initialize_vars).*1).
Proof.
  cbv zeta. unfold Model.diffvars, Model.__init__. simpl.
  pose proof (initialize_NoDup initialize_vars [] (NoDup_nil_2)) as Hnd.
  split_and!.
  - by apply filter_keys_NoDup.
  - intros name. rewrite list_elem_of_fmap. split.
    + intros ([k o] & -> & Hin). apply list_elem_of_filter in Hin as [Hdv Hin].
      simpl in *. destruct o as [v|value der]; [discriminate|].
      exists value, der. by apply getattr_elem_of.
    + intros (value & der & Hget). apply getattr_elem_of in Hget; [|done].
      exists (name, Model.DifferentialVariable value der). split; [done|].
      by apply list_elem_of_filter.
  - intros Hinits. by rewrite (initialize_distinct initialize_vars []).
Qed.

Lemma bind_diffvars_outcome names : forall (y : list ndarray) i a,
  (i + length y <= length names ->
   (Model.bind_diffvars names i y a).2 = Ok tt) /\
  (i <= length names -> length names < i + length y ->
   (Model.bind_diffvars names i y a).2
   = Raise (Exception IndexError "tuple index out of range")).
Proof.
  induction y as [|yi y IH]; intros i a; simpl.
  { split; [done|lia]. }
  destruct (names !! i) as [name|] eqn:Hi.
  - apply lookup_lt_Some in Hi. split; intros; apply IH; lia.
  - apply lookup_ge_None in Hi. split; [lia|done].
Qed.

Lemma read_ders_length names a : forall n i ders,
  Model.read_ders names a i n = Ok ders -> length ders = n.
Proof.
  induction n as [|n IH]; intros i ders; simpl.
  { by intros [= <-]. }
  destruct (Model.read_der names a i) as [d|]; [|discriminate]. simpl.
  destruct (Model.read_ders names a (S i) n) as [ds|] eqn:Hds;
    [|discriminate].
  simpl. intros [= <-]. simpl. by rewrite (IH _ _ Hds).
Qed.

(** X9: what [eval_ode] returns has one derivative for each item of [y],
    and [y] then has no more items than the model declares variables;
    the declared names and [calc_ode] of the model stay as they are
    whatever happens. *)
Theorem eval_ode_returns (m m' : Model) (t : ndarray) (y ders : list ndarray) :
  Model.eval_ode m t y = (m', Ok ders) ->
  length ders = length y /\
  length y <= length (Model.diffvars m) /\
  Model.diffvars m' = Model.diffvars m /\
  Model.calc_ode m' = Model.calc_ode m.
Proof.
  unfold Model.eval_ode, Model.diffvars.
  pose proof (bind_diffvars_outcome (Model._diffvars m) y 0 (Model.vars m))
    as [_ Hlong].
  destruct (Model.bind_diffvars _ _ _ _) as [a [[]|ex]]; [|discriminate].
  destruct (Model.calc_ode m t a) as [a' [[]|ex]]; [|discriminate].
  intros [= <- Hders]. simpl in *. split_and!; try done.
  - by eapply read_ders_length.
  - destruct (decide (length y <= length (Model._diffvars m))); [done|].
    discriminate Hlong; lia.
Qed.


Lemma bind_diffvars_binds names : forall (y : list ndarray) i a,
  NoDup names -> i + length y <= length names ->
  exists a',
    Model.bind_diffvars names i y a = (a', Ok tt) /\
    (forall k name yk,
       names !! (i + k) = Some name -> y !! k = Some yk ->
       Model.getattr a' name = Ok (Model.diffvar (Some yk))) /\
    (forall name,
       (forall k, k < length y -> names !! (i + k) <> Some name) ->
       Model.getattr a' name = Model.getattr a name).
Proof.
  induction y as [|yi y IH]; intros i a Hnd Hlen; simpl in *.
  { exists a. split_and!; [done| |done]. intros k name yk _ Hk. by destruct k. }
  destruct (lookup_lt_is_Some_2 names i) as [ni Hi]; [lia|]. rewrite Hi.
  destruct (IH (S i) (Model.setattr a ni (Model.diffvar (Some yi))) Hnd)
    as (a' & Hbind & Hin & Hout); [lia|].
  exists a'. split_and!; [done|..].
  - intros [|k] name yk Hname Hk; simpl in Hk.
    + injection Hk as <-. rewrite Nat.add_0_r, Hi in Hname.
      injection Hname as <-. rewrite Hout.
      * by rewrite getattr_setattr, String.eqb_refl.
      * intros k _ Hk.
        pose proof (NoDup_lookup _ _ _ _ Hnd Hi Hk). lia.
    + apply (Hin k); [|done]. by replace (S i + k) with (i + S k) by lia.
  - intros name Hname. rewrite Hout.
    + rewrite getattr_setattr.
      destruct (String.eqb ni name) eqn:Hn; [|done].
      apply String.eqb_eq in Hn as ->.
      destruct (Hname 0); [lia|by rewrite Nat.add_0_r].
    + intros k Hk. replace (S i + k) with (i + S k) by lia.
      apply Hname. lia.
Qed.

(** X11: what [calc_ode] is given by [eval_ode].  On a model with distinct
    declared names and a [y] with no more items than names, [calc_ode]
    runs on attributes in which the variable declared at each position
    of [y] is a new differential variable holding that item (its [der]
    zero) and every other attribute is as before; what [eval_ode] returns
    is then read off the attributes [calc_ode] leaves. *)
Theorem eval_ode_binds (m : Model) (t : ndarray) (y : list ndarray) :
  NoDup (Model.diffvars m) ->
  length y <= length (Model.diffvars m) ->
  exists a,
    (forall k name yk,
       Model.diffvars m !! k = Some name -> y !! k = Some yk ->
       Model.getattr a name
       = Ok (Model.DifferentialVariable (Some yk) (Scalar 0%float))) /\
    (forall name,
       name ∉ take (length y) (Model.diffvars m) ->
       Model.getattr a name = Model.getattr (Model.vars m) name) /\
    Model.eval_ode m t y
    = match Model.calc_ode m t a with
      | (a', Raise err) => (Model.with_vars m a', Raise err)
      | (a', Ok _) =>
          (Model.with_vars m a',
           Model.read_ders (Model.diffvars m) a' 0 (length y))
      end.
Proof.
  unfold Model.diffvars. intros Hnd Hlen.
  destruct (bind_diffvars_binds (Model._diffvars m) y 0 (Model.vars m) Hnd)
    as (a & Hbind & Hin & Hout); [done|].
  exists a. split_and!.
  - intros k name yk Hname Hk. by apply (Hin k).
  - intros name Hname. apply Hout. intros k Hk Hk'. apply Hname.
    apply list_elem_of_lookup. exists k. simpl in Hk'.
    by rewrite lookup_take_lt.
  - unfold Model.eval_ode. by rewrite Hbind.
Qed.


(** * Properties of the session *)

Lemma collect_length {A B} (f : A -> result B) : forall l l',
  collect f l = Ok l' -> length l' = length l.
Proof.
  induction l as [|a l IH]; intros l'; simpl.
  { by intros [= <-]. }
  destruct (f a) as [b|]; [|discriminate]. simpl.
  destruct (collect f l) as [bs|]; [|discriminate]. simpl.
  intros [= <-]. simpl. by rewrite (IH bs).
Qed.

Lemma collect_Forall {A B} (f : A -> result B) (P : B -> Prop) : forall l l',
  (forall a b, a ∈ l -> f a = Ok b -> P b) ->
  collect f l = Ok l' -> Forall P l'.
Proof.
  induction l as [|a l IH]; intros l' HP; simpl.
  { intros [= <-]. constructor. }
  destruct (f a) as [b|] eqn:Hb; [|discriminate]. simpl.
  destruct (collect f l) as [bs|] eqn:Hbs; [|discriminate]. simpl.
  intros [= <-]. constructor.
  - apply (HP a); [by left|done].
  - apply IH; [|done]. intros a' b' Ha'. apply HP. by right.
Qed.


Lemma np_arange_head start stop step grid :
  np_arange start stop step = Ok grid -> grid <> [] ->
  head grid = Some start.
Proof.
  unfold np_arange.
  destruct (ceil_to_intp _) as [n|]; [|discriminate]. simpl.
  intros [= <-]. by destruct (Z.to_nat n).
Qed.

Lemma sol_call_array_inv (sol : OdeSolution) ts y :
  sol_call_array sol ts = Ok y ->
  ts <> [] /\
  Forall (fun r : list float => length r = length ts) y /\
  exists t0 c0, head ts = Some t0 /\ sol_call sol t0 = Ok c0 /\
                length y = length c0.
Proof.
  unfold sol_call_array. destruct ts as [|t0 ts']; [discriminate|].
  match goal with
  | |- context [bind (?g ts') _] => set (go := g)
  end.
  assert (Hgo : forall l cols, go l = Ok cols -> length cols = length l).
  { induction l as [|t l IH]; intros cols; simpl.
    - by intros [= <-].
    - destruct (sol_call sol t) as [c|]; [|discriminate]. simpl.
      destruct (go l) as [cs|] eqn:Hcs; [|discriminate]. simpl.
      intros [= <-]. simpl. by rewrite (IH cs). }
  destruct (sol_call sol t0) as [c0|] eqn:Hc0; [|discriminate]. simpl.
  destruct (go ts') as [cs|] eqn:Hcs; [|discriminate]. simpl.
  pose proof (Hgo _ _ Hcs) as Hlen. intros [= <-].
  split_and!; [done| |].
  - apply Forall_fmap, Forall_forall. intros i _. simpl.
    by rewrite length_fmap, Hlen.
  - exists t0, c0. split_and!; [done|done|].
    by rewrite length_fmap, length_seq.
Qed.

Section SessionMore.
Context `{OdeSolverLaws} `{!Runtime}.

Lemma init_inv (s : Session) (req_param : Any) :
  match unpack_InitParam req_param with
  | Raise err => _init s req_param = Some (s, Raise err)
  | Ok parameter =>
      exists s' success message,
        _init s req_param = Some (s', Ok (StatusResponse success message)) /\
        watching s' = watching s /\
        if success then
          exists package class m,
            rsplit_dot (init_model parameter) = Some (package, class) /\
            import_model package class = Ok m /\
            engine s'
            = Some (Engine__init__ m (Some (init_t parameter))
                      (init_options parameter !! "init_step")
                      (init_options parameter !! "min_step")
                      (init_options parameter !! "max_step")) /\
            session_model s' = EngineModel /\
            restart_needed s' = Some false
        else
          engine s' = engine s /\ restart_needed s' = restart_needed s
  end.
Proof.
  unfold _init, failure.
  destruct (unpack_InitParam req_param) as [parameter|err]; [|done].
  destruct (rsplit_dot _) as [[package class]|] eqn:Hsplit;
    [|by eexists _, false, _].
  destruct (import_model package class) as [m|err] eqn:Himport;
    [|by eexists _, false, _].
  unfold Engine_kwargs. destruct (decide _); [|by eexists _, false, _].
  eexists _, true, _. split_and!; [done|done|].
  by exists package, class, m.
Qed.



(** X14: right after an INIT that succeeded, GET_DIFFVAR_NAME answers
    with the declared names of the model that INIT imported, in their
    order, and GET_CURRENT_VAL with the time of the INIT and a state of
    zeros, one for each of those names; neither changes the session. *)
Theorem init_then_get (s s' : Session) (req_param q : Any) (message : string) :
  _init s req_param = Some (s', Ok (StatusResponse true message)) ->
  exists parameter package class m,
    unpack_InitParam req_param = Ok parameter /\
    rsplit_dot (init_model parameter) = Some (package, class) /\
    import_model package class = Ok m /\
    _get_diffvar_name s' q
    = Some (s', Ok (DiffvarNameResponse (Model.diffvars m))) /\
    _get_current_val s' q
    = Some (s', Ok (CurrentValResponse (init_t parameter)
                      (replicate (length (Model.diffvars m)) 0%float))).
Proof.
  intros Hinit. pose proof (init_inv s req_param) as Hinv.
  destruct (unpack_InitParam req_param) as [parameter|err];
    [|rewrite Hinit in Hinv; discriminate].
  destruct Hinv as (s1 & success & text & Hinit' & _ & Hcase).
  rewrite Hinit in Hinit'. injection Hinit' as <- <- <-.
  destruct Hcase as (package & class & m & Hsplit & Himport & He & Hm & _).
  exists parameter, package, class, m. split_and!; [done|done|done|..].
  - unfold _get_diffvar_name, session_diffvars. by rewrite Hm, He.
  - unfold _get_current_val. by rewrite He.
Qed.

Lemma restart_if_needed_inv (s s1 : Session) :
  restart_if_needed s = Ok s1 ->
  restart_needed s1 = Some false /\ watching s1 = watching s /\
  (engine s1 = engine s \/
   exists e, engine s = Some e /\
             engine s1 = Some (restart e None None None None None)).
Proof.
  unfold restart_if_needed.
  destruct (restart_needed s) as [[]|] eqn:Hrn; [|intros [= <-]|discriminate].
  - destruct (engine s) as [e|]; [|discriminate]. intros [= <-].
    split_and!; [done|done|]. right. by exists e.
  - split_and!; [done|done|by left].
Qed.

Lemma watched_attrs_length (m : Model) : forall names os,
  watched_attrs m names = Ok os -> length os = length names.
Proof.
  induction names as [|v names IH]; intros os; simpl.
  { by intros [= <-]. }
  destruct (Model.getattr _ v) as [o|]; [|discriminate]. simpl.
  destruct (watched_attrs m names) as [os'|]; [|discriminate]. simpl.
  intros [= <-]. simpl. by rewrite (IH os').
Qed.

(** What the engine keeps of the solve when the watched names are
    evaluated after it. *)
Lemma watched_eval_frame (e1 e2 : Engine) (names : list string)
    (tout : list float) (y : list (list float))
    (watched : list Model.pyobj) :
  match names with
  | [] => (e1, Ok [])
  | _ :: _ =>
      eval e1 (fun model => watched_attrs model names)
        (Some (Vector tout)) (Some (Vector <$> y))
  end = (e2, Ok watched) ->
  _t e2 = _t e1 /\ _y e2 = _y e1 /\ _solver e2 = _solver e1 /\
  _ts e2 = _ts e1 /\ _interpolants e2 = _interpolants e1 /\
  length watched = length names.
Proof.
  destruct names as [|v vs].
  - by intros [= <- <-].
  - intros Heval.
    pose proof (eval_frame e1
                  (fun model => watched_attrs model (v :: vs))
                  (Some (Vector tout)) (Some (Vector <$> y)))
      as (Ht & Hy & Hs & Hts & Hfs & _).
    rewrite Heval in Ht, Hy, Hs, Hts, Hfs. simpl in Ht, Hy, Hs, Hts, Hfs.
    split_and!; try done.
    unfold eval in Heval.
    destruct (Model.eval_ode _ _ _) as [m' [ders|err]]; [|discriminate].
    injection Heval as _ Hattrs.
    by apply (watched_attrs_length m' (v :: vs)) in Hattrs.
Qed.

(** X15: the shape of a solution that SOLVE_IVP answers with.  The time
    grid is [np.arange(t, tn + interval, interval)] from the engine's
    time [t] before the command; it is not empty and starts at [t].
    There is one row of values for each entry of the state vector and one
    for each watched name, each row of state values as long as the grid.
    The engine is then at [tn] and no restart is pending. *)
Theorem solve_ivp_response_shape (fuel : nat) (s s' : Session)
    (req_param : Any) (e : Engine) (grid : list float)
    (rows wv : list (list float)) :
  engine s = Some e ->
  _solve_ivp fuel s req_param = Some (s', Ok (SolutionResponse grid rows wv)) ->
  exists parameter,
    unpack_SolveIVPParam req_param = Ok parameter /\
    np_arange (_t e) (tn parameter + output_interval parameter)%float
      (output_interval parameter) = Ok grid /\
    grid <> [] /\ head grid = Some (_t e) /\
    Forall (fun r : list float => length r = length grid) rows /\
    length wv = length (watching s) /\
    restart_needed s' = Some false /\
    exists e',
      engine s' = Some e' /\ _t e' = tn parameter /\
      length rows = length (_y e').
Proof.
  intros He. unfold _solve_ivp, failure.
  destruct (unpack_SolveIVPParam req_param) as [parameter|err];
    [|discriminate].
  intros Hsolve. exists parameter. split; [done|]. revert Hsolve.
  destruct (restart_if_needed s) as [s1|err] eqn:Hrestart; [|discriminate].
  destruct (restart_if_needed_inv _ _ Hrestart) as (Hrn & Hw & He1).
  destruct (engine s1) as [e0|] eqn:He0; [|discriminate].
  assert (Ht0 : _t e0 = _t e).
  { destruct He1 as [He1|(e1 & He1 & He1')].
    - congruence.
    - rewrite He in He1. injection He1 as <-.
      injection He1' as ->. done. }
  destruct (solve_ivp fuel e0 _) as [[e1 [sol|err]]|] eqn:Hsolve;
    try discriminate.
  assert (Ht1 : _t e1 = tn parameter).
  { apply solve_ivp_inv in Hsolve as (? & ? & _ & _ & Hfin).
    by apply solve_ivp_finish_inv in Hfin as (f & _ & -> & _). }
  unfold Engine_t. rewrite Ht0.
  destruct (np_arange _ _ _) as [tout|err] eqn:Hgrid; [|discriminate].
  destruct (sol_call_array sol tout) as [y|err] eqn:Hy; [|discriminate].
  destruct (sol_call_array_inv _ _ _ Hy) as (Hne & Hrows & _).
  destruct (match watching s1 with [] => _ | _ => _ end)
    as [e2 [watched|err]] eqn:Heval; [|discriminate].
  destruct (watched_eval_frame _ _ _ _ _ _ Heval)
    as (Ht2 & Hy2 & _ & _ & _ & Hlw).
  destruct (collect (row y) _) as [drows|] eqn:Hdrows; [|discriminate].
  simpl.
  destruct (collect watched_row watched) as [wrows|] eqn:Hwrows;
    [|discriminate].
  simpl. intros [= <- <- <- <-]. split_and!; try done.
  - by eapply np_arange_head.
  - eapply collect_Forall; [|exact Hdrows]. intros i r _. unfold row.
    destruct (y !! i) as [r'|] eqn:Hi; [|discriminate]. intros [= <-].
    eapply Forall_forall in Hrows; [exact Hrows|].
    by eapply list_elem_of_lookup_2.
  - apply collect_length in Hwrows. congruence.
  - exists e2. split_and!; [done|congruence|].
    apply collect_length in Hdrows. by rewrite Hdrows, length_seq.
Qed.

End SessionMore.

Section SessionResponds.
Context `{OdeSolverLaws} `{!Runtime}.




End SessionResponds.

Section SessionCompose.
Context `{OdeSolverLaws} `{!Runtime}.

(** X19: values written by SET_DIFFVAR_VAL take effect in the next
    SOLVE_IVP.  On a session with an engine, a SOLVE_IVP that answers
    with a solution after a SET_DIFFVAR_VAL that was answered (with
    either status) has dropped the old solver and built a new one from
    the engine's time and the state vector as SET_DIFFVAR_VAL left it,
    with the step settings kept.  The engine then holds the solver as
    its steps left it, the recorded times start afresh at that time and
    go on with the solver's time after each step, and the recorded
    interpolants are the solver's dense outputs of those steps.  The rows
    of the answer are that solution taken on the grid, one for each entry
    of the state vector.  The engine ends at the target with no restart
    pending. *)
Theorem set_diffvar_val_then_solve (fuel : nat) (s s1 s2 : Session)
    (p q : Any) (e : Engine) (r1 : Response) (grid : list float)
    (rows wv : list (list float)) :
  engine s = Some e ->
  _set_diffvar_val s p = Some (s1, Ok r1) ->
  _solve_ivp fuel s1 q = Some (s2, Ok (SolutionResponse grid rows wv)) ->
  exists valmap parameter s0 states e2 y,
    unpack_SetDiffvarValParam p = Ok valmap /\
    unpack_SolveIVPParam q = Ok parameter /\
    LSODA Model.eval_ode (_t e) (_y (set_diffvar_values e valmap).1) infinity
      (_init_step e) (_min_step e) (_max_step e) 1e-6%float 1e-10%float
    = Ok s0 /\
    take_steps (length states) s0 (model e) = Some states /\
    states <> [] /\
    engine s2 = Some e2 /\
    _ts e2 = _t e :: (solver_t <$> states) /\
    _interpolants e2 = dense_output <$> states /\
    _solver e2 = Some (default s0 (last states)) /\
    _t e2 = tn parameter /\
    sol_call_array
      {| sol_ts := _ts e2; sol_interpolants := _interpolants e2 |} grid
    = Ok y /\
    collect (row y) (seq 0 (length (_y e2))) = Ok rows /\
    restart_needed s2 = Some false.
Proof.
  intros He Hset Hsolve.
  unfold _set_diffvar_val in Hset.
  destruct (unpack_SetDiffvarValParam p) as [valmap|err]; [|discriminate].
  simpl in Hset. rewrite He in Hset.
  destruct (set_diffvar_values e valmap) as [e' r] eqn:Hsdv.
  assert (Hs1 : s1 = with_engine (with_restart_needed s true) e').
  { destruct r as [[]|err]; unfold failure in Hset; congruence. }
  subst s1. clear Hset.
  assert (Hframe : _t e' = _t e /\ _init_step e' = _init_step e /\
                   _min_step e' = _min_step e /\ _max_step e' = _max_step e /\
                   model e' = model e).
  { unfold set_diffvar_values in Hsdv.
    destruct (set_values_from _ _ _ _) as [y' r']. by injection Hsdv as <- _. }
  destruct Hframe as (Ht' & Hi' & Hmn' & Hmx' & Hm').
  unfold _solve_ivp, restart_if_needed, failure in Hsolve.
  destruct (unpack_SolveIVPParam q) as [parameter|err]; [|discriminate].
  simpl in Hsolve.
  destruct (solve_ivp fuel _ _) as [[e1 [sol|err]]|] eqn:Hsol;
    try discriminate.
  destruct (solve_ivp_fresh (restart e' None None None None None) _ _ _ _
              eq_refl Hsol)
    as (s0 & states & Hnew & Htake & Hne & Hts & Hfs & Hsolver & _ & Ht1
        & _ & Hsolution & _).
  simpl in Hnew, Htake, Hts. rewrite Ht', ?Hi', ?Hmn', ?Hmx' in Hnew.
  rewrite Ht' in Hts. rewrite Hm' in Htake.
  destruct (np_arange _ _ _) as [tout|err]; [|discriminate].
  destruct (sol_call_array sol tout) as [y|err] eqn:Hy; [|discriminate].
  destruct (match watching s with [] => _ | _ => _ end)
    as [e2 [watched|err]] eqn:Heval; [|discriminate].
  destruct (watched_eval_frame _ _ _ _ _ _ Heval)
    as (Ht2 & Hy2 & Hs2 & Hts2 & Hfs2 & _).
  unfold Engine_y in Hsolve.
  destruct (collect (row y) _) as [drows|] eqn:Hdrows; [|discriminate].
  simpl in Hsolve.
  destruct (collect watched_row watched) as [wrows|]; [|discriminate].
  simpl in Hsolve. injection Hsolve as <- <- <- _.
  exists valmap, parameter, s0, states, e2, y.
  rewrite Hts2, Hfs2, Hs2, Ht2, <- Hsolution, Hsdv.
  split_and!; done.
Qed.

End SessionCompose.

(** * The values of CALL_MODEL_METHOD *)

Lemma build_generic_value_member (np_int : bool) (fits : Z -> bool)
    (item : pyvalue) (v : GenericValue) :
  _build_generic_value np_int fits item = Ok v ->
  generic_value_member v = item.
Proof.
  destruct item as [x|k|str|l|]; simpl.
  - by intros [= <-].
  - destruct np_int; [|discriminate].
    destruct (fits k); [|discriminate]. by intros [= <-].
  - destruct np_int; [|discriminate]. by intros [= <-].
  - by destruct np_int.
  - by destruct np_int.
Qed.

Lemma collect_members (np_int : bool) (fits : Z -> bool)
    (items : list pyvalue) (vs : list GenericValue) :
  collect (_build_generic_value np_int fits) items = Ok vs ->
  generic_value_member <$> vs = items.
Proof.
  revert vs. induction items as [|item items IH]; intros vs; simpl.
  { by intros [= <-]. }
  destruct (_build_generic_value np_int fits item) as [v|] eqn:Hv;
    [|discriminate].
  simpl.
  destruct (collect _ items) as [vs'|] eqn:Hvs; [|discriminate]. simpl.
  intros [= <-]. rewrite fmap_cons, (IH vs' eq_refl). f_equal.
  by eapply build_generic_value_member.
Qed.

(** X18: what [_build_scalar_or_array_value] makes of a value returned
    by a method of the model, [_get_scalar_or_array_value] reads back as
    that value: a float, an int or a str as itself, from a message
    flagged scalar, and a list of such as the list, from a message not
    flagged scalar.  This holds whichever numpy is installed and whatever
    the width of the integer field is. *)
Theorem build_then_get_value (np_int : bool) (fits : Z -> bool)
    (value : pyvalue) (msg : GenericScalarOrArray) :
  _build_scalar_or_array_value np_int fits value = Ok msg ->
  _get_scalar_or_array_value msg = Ok value /\
  isscalar msg = np_isscalar value.
Proof.
  unfold _build_scalar_or_array_value, _get_scalar_or_array_value.
  destruct value as [x|k|str|items|]; cbn [np_isscalar]; try discriminate.
  - by intros [= <-].
  - destruct (_build_generic_value _ _ _) as [v|] eqn:Hv; [|discriminate].
    intros [= <-]. simpl.
    by rewrite (build_generic_value_member _ _ _ _ Hv).
  - destruct (_build_generic_value _ _ _) as [v|] eqn:Hv; [|discriminate].
    intros [= <-]. simpl.
    by rewrite (build_generic_value_member _ _ _ _ Hv).
  - destruct (collect _ items) as [vs|] eqn:Hvs; [|discriminate]. simpl.
    intros [= <-]. simpl. by rewrite (collect_members _ _ _ _ Hvs).
Qed.

(** * Examples of the further properties *)

Lemma get_then_set_diffvar_values_witness :
  exists d,
    get_diffvar_values exp_engine = Ok d /\
    set_diffvar_values exp_engine d = (exp_engine, Ok tt).
Proof.
  destruct (get_diffvar_values exp_engine) as [d|ex] eqn:Hget;
    [|vm_compute in Hget; discriminate].
  exists d. split; [reflexivity|].
  apply (get_then_set_diffvar_values exp_engine d); [|exact Hget].
  vm_compute. apply NoDup_singleton.
Defined.

Lemma set_diffvar_values_twice_witness :
  set_diffvar_values
    (set_diffvar_values exp_engine {["y" := 1%float]}).1 {["y" := 2%float]}
  = set_diffvar_values exp_engine ({["y" := 2%float]} ∪ {["y" := 1%float]}).
Proof.
  apply (set_diffvar_values_twice exp_engine). vm_compute. apply le_n.
Defined.

Lemma eval_ode_returns_witness :
  exists m' ders,
    Model.eval_ode SingleExpModel (Scalar 0) [Scalar 10] = (m', Ok ders) /\
    length ders = 1.
Proof.
  destruct (Model.eval_ode SingleExpModel (Scalar 0) [Scalar 10])
    as [m' [ders|ex]] eqn:Heval; [|vm_compute in Heval; discriminate].
  exists m', ders. split; [reflexivity|].
  exact (proj1 (eval_ode_returns _ _ _ _ _ Heval)).
Defined.


Lemma eval_ode_binds_witness :
  exists a,
    Model.getattr a "y"
    = Ok (Model.DifferentialVariable (Some (Scalar 10)) (Scalar 0)) /\
    Model.getattr a "tau" = Ok (Model.Value (Scalar 1)).
Proof.
  destruct (eval_ode_binds SingleExpModel (Scalar 0) [Scalar 10%float])
    as (a & Hin & Hout & _).
  - vm_compute. apply NoDup_singleton.
  - vm_compute. apply le_n.
  - exists a. split.
    + by apply (Hin 0).
    + rewrite Hout; [reflexivity|]. vm_compute.
      intros Hin'. apply list_elem_of_singleton in Hin'. discriminate.
Defined.


Lemma init_then_get_witness :
  _get_diffvar_name exp_session NotSet
  = Some (exp_session, Ok (DiffvarNameResponse ["y"])) /\
  _get_current_val exp_session NotSet
  = Some (exp_session, Ok (CurrentValResponse 0 [0%float])).
Proof.
  destruct (@init_then_get Euler_solver test_runtime Session__init__
              exp_session init_param NotSet "")
    as (parameter & package & class & m & Hun & Hsplit & Himport
        & Hnames & Hval).
  { by vm_compute. }
  vm_compute in Hun. injection Hun as <-.
  vm_compute in Hsplit. injection Hsplit as <- <-.
  vm_compute in Himport. injection Himport as <-.
  split; [exact Hnames|exact Hval].
Defined.

Lemma solve_ivp_response_shape_witness :
  exists s' grid rows wv,
    _solve_ivp 2 exp_session solve_param
    = Some (s', Ok (SolutionResponse grid rows wv)) /\
    head grid = Some 0%float /\ length rows = 1 /\ length wv = 0.
Proof.
  destruct (engine exp_session) as [e|] eqn:He;
    [|vm_compute in He; discriminate].
  destruct (_solve_ivp 2 exp_session solve_param)
    as [[s' [[| | |grid rows wv| |]|ex]]|] eqn:Hsolve;
    try (vm_compute in Hsolve; discriminate).
  destruct (solve_ivp_response_shape 2 exp_session s' solve_param e
              grid rows wv He Hsolve)
    as (parameter & _ & _ & _ & Hhead & _ & Hwv & _ & e' & He' & _ & Hrows).
  exists s', grid, rows, wv. split_and!; [reflexivity| | |exact Hwv].
  - rewrite Hhead. vm_compute in He. by injection He as <-.
  - rewrite Hrows. vm_compute in Hsolve. injection Hsolve as <- _ _ _.
    vm_compute in He'. by injection He' as <-.
Defined.



Lemma build_then_get_value_witness :
  exists msg,
    _build_scalar_or_array_value true int64_fits mixed_value = Ok msg /\
    _get_scalar_or_array_value msg = Ok mixed_value.
Proof.
  destruct (_build_scalar_or_array_value true int64_fits mixed_value)
    as [msg|ex] eqn:Hbuild; [|vm_compute in Hbuild; discriminate].
  exists msg. split; [reflexivity|].
  exact (proj1 (build_then_get_value _ _ _ _ Hbuild)).
Defined.

Lemma set_diffvar_val_then_solve_witness :
  exists s1 r1 s2 grid rows wv e2,
    _set_diffvar_val exp_session
      (PackedSetDiffvarValParam {["y" := 10%float]}) = Some (s1, Ok r1) /\
    _solve_ivp 2 s1 solve_param
    = Some (s2, Ok (SolutionResponse grid rows wv)) /\
    engine s2 = Some e2 /\
    _ts e2 = [0%float; 0.5%float; 1%float] /\ _t e2 = 1%float /\
    rows = [[10%float; 3.75%float; 0%float]].
Proof.
  destruct (engine exp_session) as [e|] eqn:He;
    [|vm_compute in He; discriminate].
  destruct (_set_diffvar_val exp_session
              (PackedSetDiffvarValParam {["y" := 10%float]}))
    as [[s1 [r1|ex]]|] eqn:Hset; [|vm_compute in Hset; discriminate..].
  destruct (_solve_ivp 2 s1 solve_param)
    as [[s2 [[| | |grid rows wv| |]|ex]]|] eqn:Hsolve;
    try (vm_compute in Hset; injection Hset as <- _;
         vm_compute in Hsolve; discriminate).
  destruct (set_diffvar_val_then_solve 2 exp_session s1 s2 _ solve_param e
              r1 grid rows wv He Hset Hsolve)
    as (valmap & parameter & s0 & states & e2 & y & _ & Hq & _ & _ & _
        & He2 & _ & _ & _ & Ht & _).
  exists s1, r1, s2, grid, rows, wv, e2.
  split_and!; [reflexivity|exact Hsolve|exact He2| | |].
  - vm_compute in Hset. injection Hset as <- _.
    vm_compute in Hsolve. injection Hsolve as <- _ _ _.
    vm_compute in He2. by injection He2 as <-.
  - rewrite Ht. vm_compute in Hq. by injection Hq as <-.
  - vm_compute in Hset. injection Hset as <- _.
    vm_compute in Hsolve. by injection Hsolve as _ _ <- _.
Defined.
